(** * beamprofiler: a shallow embedding of [beamprofileranalysis.py]

    The script measures laser-beam widths from camera frames and fits the
    beam-propagation law.  This development embeds the functions of
    [src/beamprofiler/beamprofileranalysis.py] that the specification talks
    about and proves, or refutes, the specification's statements on them.

    Numbers.  NumPy's float64 is modelled by [fl]: a rational, the two
    infinities, or NaN.  Finite arithmetic is exact (rounding, overflow and
    signed zeros are outside the model) and its results are kept in lowest
    terms; the special values follow IEEE-754
    as NumPy applies it: dividing by zero gives an infinity or NaN and a
    warning, never an exception.  Square root, arc tangent and pi come from
    the C library; they are the fields of the class [Libm], and every general
    theorem holds for any instance of it. *)

From Stdlib Require Import ZArith QArith Qabs Qround String Ascii Bool List Lia Lqa.
From Stdlib Require Qcanon.
Import ListNotations.

Local Open Scope Z_scope.

(** ** Python results: a value or a raised exception *)

Module Py.

Inductive exn : Type :=
| ValueError
| OverflowError
| ZeroDivisionError
| IndexError
| NameError
| RuntimeError
| Exception (msg : string).

Inductive result (A : Type) : Type :=
| Ok (a : A)
| Raise (e : exn).

Arguments Ok {A} a.
Arguments Raise {A} e.

Definition bind {A B : Type} (r : result A) (k : A -> result B) : result B :=
  match r with
  | Ok a => k a
  | Raise e => Raise e
  end.

End Py.

Import Py.

Declare Scope py_scope.
Delimit Scope py_scope with py.
Notation "x <- e ;; k" := (bind e (fun x => k))
  (at level 61, e at next level, right associativity) : py_scope.
Notation "' pat <- e ;; k" := (bind e (fun x => match x with pat => k end))
  (at level 61, pat pattern, e at next level, right associativity) : py_scope.
Local Open Scope py_scope.

(** ** float64 values *)

Module Float.

Inductive fl : Type :=
| Fin (q : Q)
| PInf
| NInf
| NaN.

Definition of_Z (z : Z) : fl := Fin (inject_Z z).

(** The finite result of an operation, in lowest terms. *)
Definition fin (q : Q) : fl := Fin (Qred q).

Definition Qltb (a b : Q) : bool := negb (Qle_bool b a).

Definition isnan (x : fl) : bool :=
  match x with NaN => true | _ => false end.

Definition isfinite (x : fl) : bool :=
  match x with Fin _ => true | _ => false end.

Definition signed_inf (positive : bool) : fl := if positive then PInf else NInf.

Definition fneg (x : fl) : fl :=
  match x with
  | Fin q => Fin (- q)
  | PInf => NInf
  | NInf => PInf
  | NaN => NaN
  end.

Definition fadd (x y : fl) : fl :=
  match x, y with
  | NaN, _ | _, NaN => NaN
  | Fin a, Fin b => fin (a + b)
  | PInf, NInf | NInf, PInf => NaN
  | PInf, _ | _, PInf => PInf
  | NInf, _ | _, NInf => NInf
  end.

Definition fsub (x y : fl) : fl := fadd x (fneg y).

(** An infinity times the finite [q]: NaN when [q] is zero. *)
Definition inf_times (positive : bool) (q : Q) : fl :=
  if Qeq_bool q 0 then NaN
  else signed_inf (if Qltb 0 q then positive else negb positive).

Definition fmul (x y : fl) : fl :=
  match x, y with
  | NaN, _ | _, NaN => NaN
  | Fin a, Fin b => fin (a * b)
  | PInf, Fin q | Fin q, PInf => inf_times true q
  | NInf, Fin q | Fin q, NInf => inf_times false q
  | PInf, PInf | NInf, NInf => PInf
  | PInf, NInf | NInf, PInf => NInf
  end.

(** NumPy's true division: [x / 0] is an infinity, [0 / 0] is NaN. *)
Definition fdiv (x y : fl) : fl :=
  match x, y with
  | NaN, _ | _, NaN => NaN
  | Fin a, Fin b =>
      if Qeq_bool b 0 then
        (if Qeq_bool a 0 then NaN else signed_inf (Qltb 0 a))
      else fin (a / b)
  | Fin _, (PInf | NInf) => Fin 0
  | PInf, Fin b => signed_inf (Qle_bool 0 b)
  | NInf, Fin b => signed_inf (negb (Qle_bool 0 b))
  | (PInf | NInf), (PInf | NInf) => NaN
  end.

Definition fabs (x : fl) : fl :=
  match x with
  | Fin q => Fin (Qabs q)
  | PInf | NInf => PInf
  | NaN => NaN
  end.

(** Comparisons: every comparison with NaN is false. *)
Definition fle (x y : fl) : bool :=
  match x, y with
  | NaN, _ | _, NaN => false
  | Fin a, Fin b => Qle_bool a b
  | NInf, _ | _, PInf => true
  | _, _ => false
  end.

Definition flt (x y : fl) : bool :=
  match x, y with
  | NaN, _ | _, NaN => false
  | Fin a, Fin b => Qltb a b
  | PInf, _ | _, NInf => false
  | _, _ => true
  end.

Definition fgt (x y : fl) : bool := flt y x.

Definition feq (x y : fl) : bool :=
  match x, y with
  | Fin a, Fin b => Qeq_bool a b
  | PInf, PInf | NInf, NInf => true
  | _, _ => false
  end.

(** [np.sign]. *)
Definition np_sign (x : fl) : fl :=
  match x with
  | Fin q => if Qeq_bool q 0 then Fin 0 else if Qltb 0 q then Fin 1 else Fin (-1)
  | PInf => Fin 1
  | NInf => Fin (-1)
  | NaN => NaN
  end.

(** Python's built-in [min(a, b)]: [b] when [b < a], else [a]; so a NaN
    first argument is kept. *)
Definition py_min (a b : fl) : fl := if flt b a then b else a.

(** Python's [int(x)] ([np.int] is its alias): truncation toward zero;
    NaN and the infinities raise. *)
Definition py_int (x : fl) : result Z :=
  match x with
  | Fin q => Ok (Z.quot (Qnum q) (Zpos (Qden q)))
  | PInf | NInf => Raise OverflowError
  | NaN => Raise ValueError
  end.

End Float.

Import Float.

(** ** Two-dimensional arrays and slicing *)

Record ndarray : Type := mk_ndarray {
  shape0 : nat;               (* rows,    [data.shape[0]] *)
  shape1 : nat;               (* columns, [data.shape[1]] *)
  cells : list (list fl)
}.

Definition well_shaped (a : ndarray) : Prop :=
  length (cells a) = shape0 a /\
  Forall (fun row => length row = shape1 a) (cells a).

(** Python resolves the bound [i] of a slice over [n] items: a negative
    bound counts from the end, and the result is clipped to [0..n]. *)
Definition slice_bound (n i : Z) : Z :=
  if i <? 0 then Z.max (i + n) 0 else Z.min i n.

Definition slice_len (n : nat) (start stop : Z) : nat :=
  Z.to_nat (slice_bound (Z.of_nat n) stop - slice_bound (Z.of_nat n) start).

Definition py_slice {A : Type} (l : list A) (start stop : Z) : list A :=
  firstn (slice_len (length l) start stop)
         (skipn (Z.to_nat (slice_bound (Z.of_nat (length l)) start)) l).

(** [data[r0:r1, c0:c1]]. *)
Definition slice2 (data : ndarray) (r0 r1 c0 c1 : Z) : ndarray :=
  {| shape0 := slice_len (shape0 data) r0 r1;
     shape1 := slice_len (shape1 data) c0 c1;
     cells := map (fun row => py_slice row c0 c1) (py_slice (cells data) r0 r1) |}.

(** ** [get_roi] *)

(** [roi = [x0, width, y0, height]]. *)
Record ROI : Type := mk_roi {
  roi_x0 : fl;
  roi_width : fl;
  roi_y0 : fl;
  roi_height : fl
}.

(** The integer window that [get_roi] slices with. *)
Record window : Type := mk_window {
  w_bottom : Z;
  w_height : Z;
  w_left : Z;
  w_width : Z
}.

Definition get_roi_window (data : ndarray) (roi : ROI) : result window :=
  let left := fsub (roi_x0 roi) (fdiv (roi_width roi) (Fin 2)) in
  let bottom := fsub (roi_y0 roi) (fdiv (roi_height roi) (Fin 2)) in
  let width := roi_width roi in
  let height := roi_height roi in

  let left := py_min left (of_Z (Z.of_nat (shape1 data) - 2)) in
  '(left, width) <-
    (if fle left (Fin 0) then Ok (0, fadd width left)
     else if isnan left then Ok (0, width)
     else l <- py_int left ;; Ok (l, width)) ;;

  let bottom := py_min bottom (of_Z (Z.of_nat (shape0 data) - 2)) in
  '(bottom, height) <-
    (if fle bottom (Fin 0) then Ok (0, fadd height bottom)
     else if isnan bottom then Ok (0, height)
     else b <- py_int bottom ;; Ok (b, height)) ;;

  width <-
    (if fgt (fadd (of_Z left) width) (of_Z (Z.of_nat (shape1 data)))
     then Ok (Z.of_nat (shape1 data) - left)
     else if isnan width then Ok (Z.of_nat (shape1 data))
     else py_int width) ;;

  height <-
    (if fgt (fadd (of_Z bottom) height) (of_Z (Z.of_nat (shape0 data)))
     then Ok (Z.of_nat (shape0 data) - bottom)
     else if isnan height then Ok (Z.of_nat (shape0 data))
     else py_int height) ;;

  Ok {| w_bottom := bottom; w_height := height; w_left := left; w_width := width |}.

Definition get_roi (data : ndarray) (roi : ROI) : result ndarray :=
  w <- get_roi_window data roi ;;
  Ok (slice2 data (w_bottom w) (w_bottom w + w_height w)
                  (w_left w) (w_left w + w_width w)).

(** ** The C library behind NumPy and Python floats *)

(** The rounded square root and arc tangent of a finite argument, and pi.
    Nothing is assumed of them here; theorems that need a property of the
    square root state it. *)
Class Libm : Type := mk_libm {
  libm_sqrt : Q -> Q;
  libm_atan : Q -> Q;
  libm_pi : Q
}.

Section NumPyFunctions.

Context {M : Libm}.

(** [np.sqrt]: NaN (and a warning) below zero. *)
Definition np_sqrt (x : fl) : fl :=
  match x with
  | Fin q => if Qltb q 0 then NaN else Fin (libm_sqrt q)
  | PInf => PInf
  | NInf | NaN => NaN
  end.

(** [x**(1/2)] on a float64: as [np.sqrt], but C's [pow] sends minus
    infinity to plus infinity. *)
Definition np_pow_half (x : fl) : fl :=
  match x with
  | Fin q => if Qltb q 0 then NaN else Fin (libm_sqrt q)
  | PInf | NInf => PInf
  | NaN => NaN
  end.

Definition np_arctan (x : fl) : fl :=
  match x with
  | Fin q => Fin (libm_atan q)
  | PInf => Fin (libm_pi / 2)
  | NInf => Fin (- (libm_pi / 2))
  | NaN => NaN
  end.

End NumPyFunctions.

(** [np.arange(n)] *)
Definition np_arange (n : nat) : list fl :=
  map (fun i => of_Z (Z.of_nat i)) (seq 0 n).

(** [np.sum]: the sum of all items (of an empty array: 0). *)
Definition np_sum (l : list fl) : fl := fold_left fadd l (Fin 0).

(** [np.min] and [np.max] of the items: NaN as soon as one item is NaN; an
    empty array raises. *)
Definition min2 (a b : fl) : fl :=
  if isnan a then a else if isnan b then b else if flt b a then b else a.

Definition max2 (a b : fl) : fl :=
  if isnan a then a else if isnan b then b else if flt a b then b else a.

Definition np_min (l : list fl) : result fl :=
  match l with
  | [] => Raise ValueError
  | x :: tl => Ok (fold_left min2 tl x)
  end.

Definition np_max (l : list fl) : result fl :=
  match l with
  | [] => Raise ValueError
  | x :: tl => Ok (fold_left max2 tl x)
  end.

(** The first index at which [l] holds the value [v] ([np.argmin] and
    [np.argmax] return the first occurrence; all NaN count as one value). *)
Fixpoint first_index (v : fl) (l : list fl) : nat :=
  match l with
  | [] => O
  | x :: tl => if feq x v || (isnan x && isnan v) then O else S (first_index v tl)
  end.

Definition np_argmin (l : list fl) : result nat :=
  m <- np_min l ;; Ok (first_index m l).

Definition np_argmax (l : list fl) : result nat :=
  m <- np_max l ;; Ok (first_index m l).

(** [z[i]] on a one-dimensional array. *)
Definition getitem (l : list fl) (i : nat) : result fl :=
  match nth_error l i with
  | Some x => Ok x
  | None => Raise IndexError
  end.

(** [np.gradient] of a one-dimensional array with unit spacing: one-sided
    differences at the two ends, central differences inside; fewer than two
    items raise. *)
Fixpoint gradient_from (prev : fl) (l : list fl) : list fl :=
  match l with
  | [] => []
  | [last] => [fsub last prev]
  | cur :: (next :: _) as tl => fdiv (fsub next prev) (Fin 2) :: gradient_from cur tl
  end.

Definition np_gradient (f : list fl) : result (list fl) :=
  match f with
  | f0 :: (f1 :: _) as tl => Ok (fsub f1 f0 :: gradient_from f0 tl)
  | _ => Raise ValueError
  end.

(** ** [calculate_2D_moments] *)

(** [np.sum(term*dx*dy)], where [term] is written from the cell [d] and its
    coordinates [x], [y], and [dx], [dy] are the meshed gradients. *)
Definition grid_sum (data : ndarray) (x gx y gy : list fl)
    (term : fl -> fl -> fl -> fl) : fl :=
  np_sum
    (concat
       (map (fun '(row, (yj, gyj)) =>
               map (fun '(d, (xi, gxi)) => fmul (fmul (term d xi yj) gxi) gyj)
                   (combine row (combine x gx)))
            (combine (cells data) (combine y gy)))).

Definition square (v : fl) : fl := fmul v v.

Definition calculate_2D_moments (data : ndarray) (axes_scale : fl * fl)
    (calc_2nd_moments : bool) : result (list fl) :=
  let x := map (fmul (fst axes_scale)) (np_arange (shape1 data)) in
  let y := map (fmul (snd axes_scale)) (np_arange (shape0 data)) in
  dx <- np_gradient x ;;
  dy <- np_gradient y ;;
  let A := grid_sum data x dx y dy (fun d _ _ => d) in
  let avgx := fdiv (grid_sum data x dx y dy (fun d xi _ => fmul d xi)) A in
  let avgy := fdiv (grid_sum data x dx y dy (fun d _ yj => fmul d yj)) A in
  if calc_2nd_moments then
    let sig2x :=
      fdiv (grid_sum data x dx y dy (fun d xi _ => fmul d (square (fsub xi avgx)))) A in
    let sig2y :=
      fdiv (grid_sum data x dx y dy (fun d _ yj => fmul d (square (fsub yj avgy)))) A in
    let sig2xy :=
      fdiv (grid_sum data x dx y dy
              (fun d xi yj => fmul (fmul d (fsub xi avgx)) (fsub yj avgy))) A in
    Ok [avgx; avgy; sig2x; sig2y; sig2xy]
  else
    Ok [avgx; avgy].

(** The total weighted intensity [A] of the source. *)
Definition total_weight (data : ndarray) (axes_scale : fl * fl) : result fl :=
  let x := map (fmul (fst axes_scale)) (np_arange (shape1 data)) in
  let y := map (fmul (snd axes_scale)) (np_arange (shape0 data)) in
  dx <- np_gradient x ;;
  dy <- np_gradient y ;;
  Ok (grid_sum data x dx y dy (fun d _ _ => d)).

(** The defaults of the signature: [axes_scale=[1,1]], second moments on. *)
Definition default_scale : fl * fl := (Fin 1, Fin 1).

(** ** [normalize] *)

Definition warning_normalize : string :=
  "Divide-by-zero in Normalization. Scaled to 1.".

Definition map_cells (f : fl -> fl) (data : ndarray) : ndarray :=
  {| shape0 := shape0 data; shape1 := shape1 data;
     cells := map (map f) (cells data) |}.

(** [np.ones(shape)] *)
Definition np_ones (n0 n1 : nat) : ndarray :=
  {| shape0 := n0; shape1 := n1; cells := repeat (repeat (Fin 1) n1) n0 |}.

(** The result comes with the warnings issued on the way. *)
Definition normalize (data : ndarray) (offset : fl) : result ndarray * list string :=
  match np_min (concat (cells data)), np_max (concat (cells data)) with
  | Ok lo, Ok hi =>
      let shift := map_cells (fun v => fsub v lo) data in
      let scale := fsub hi lo in
      if feq scale (Fin 0) then
        (Ok (map_cells (fun v => fadd v offset) (np_ones (shape0 data) (shape1 data))),
         [warning_normalize])
      else
        (Ok (map_cells (fun v => fadd (fdiv v scale) offset) shift), [])
  | Raise e, _ | _, Raise e => (Raise e, [])
  end.

(** ** [while] loops *)

(** What one pass through the body of a loop does to the loop: go on, or
    [break]. *)
Inductive flow (S : Type) : Type :=
| Continue (s : S)
| Break (s : S).

Arguments Continue {S} s.
Arguments Break {S} s.

(** [while cond: body], run for at most [fuel] passes.  [None] is a loop
    still running when the fuel is spent. *)
Fixpoint py_while {S : Type} (fuel : nat) (cond : S -> bool)
    (body : S -> result (flow S)) (s : S) : option (result S) :=
  match fuel with
  | O => None
  | Datatypes.S fuel' =>
      if cond s then
        match body s with
        | Raise e => Some (Raise e)
        | Ok (Break s') => Some (Ok s')
        | Ok (Continue s') => py_while fuel' cond body s'
        end
      else Some (Ok s)
  end.

(** ** [calculate_beamwidths] *)

Definition PIXSIZE : Q := 1745 # 1000000000.   (* 1.745E-6 *)

(** [pix2len] on a scalar. *)
Definition pix2len (input : fl) : fl := fmul input (Fin PIXSIZE).

Definition error_limit : fl := Fin (1 # 10000).
Definition it_limit : nat := 5.

Definition exceeded_message : string := "exceeded iteration in calculating moments".

(** The variables of the loop.  [roi] and [moments] are unbound until the
    first pass has run. *)
Record loop_state : Type := mk_loop_state {
  errx : fl;
  erry : fl;
  itN : nat;
  d0x : fl;
  d0y : fl;
  roi_new : ROI;
  roi_moments : option (ROI * list fl);
  printed : list string
}.

(** What [calculate_beamwidths] returns: [beamwidths, roi, moments]. *)
Record beam_sample : Type := mk_beam_sample {
  beamwidths : list fl;       (* [dx, dy, phi] *)
  roi : ROI;
  moments : list fl
}.

(** Python values, as far as the shape of a returned tuple goes. *)
#[local] Set Warnings "-register-all".
Inductive pyval : Type :=
| PyFloat (x : fl)
| PyBool (b : bool)
| PySeq (items : list pyval).

Fixpoint holds_bool (v : pyval) : bool :=
  match v with
  | PyFloat _ => false
  | PyBool _ => true
  | PySeq items => existsb holds_bool items
  end.

Definition roi_items (r : ROI) : list fl :=
  [roi_x0 r; roi_width r; roi_y0 r; roi_height r].

(** The tuple that the [return] statement builds. *)
Definition returned_tuple (s : beam_sample) : pyval :=
  PySeq [PySeq (map PyFloat (beamwidths s));
         PySeq (map PyFloat (roi_items (roi s)));
         PySeq (map PyFloat (moments s))].

Definition item (l : list fl) (i : nat) : fl := nth i l NaN.

Section BeamWidths.

Context {M : Libm}.

Definition initial_state (data : ndarray) : loop_state :=
  let d0x := of_Z (Z.of_nat (shape1 data)) in
  let d0y := of_Z (Z.of_nat (shape0 data)) in
  {| errx := Fin 1; erry := Fin 1; itN := 0%nat;
     d0x := d0x; d0y := d0y;
     roi_new := {| roi_x0 := fdiv d0x (Fin 2); roi_width := d0x;
                   roi_y0 := fdiv d0y (Fin 2); roi_height := d0y |};
     roi_moments := None;
     printed := [] |}.

(** [any([i>error_limit for i in [errx,erry]])] *)
Definition loop_cond (st : loop_state) : bool :=
  fgt (errx st) error_limit || fgt (erry st) error_limit.

Definition loop_body (full_data : ndarray) (st : loop_state)
    : result (flow loop_state) :=
  let roi := roi_new st in
  data <- get_roi full_data roi ;;
  moments <- calculate_2D_moments data default_scale true ;;
  let dx := fmul (Fin 4) (np_sqrt (item moments 2)) in
  let dy := fmul (Fin 4) (np_sqrt (item moments 3)) in
  let errx := fdiv (fabs (fsub dx (d0x st))) (d0x st) in
  let erry := fdiv (fabs (fsub dy (d0y st))) (d0y st) in
  let roi_new :=
    {| roi_x0 := fsub (fadd (item moments 0) (roi_x0 roi))
                      (fdiv (roi_width roi) (Fin 2));
       roi_width := fmul (Fin 3) dx;
       roi_y0 := fsub (fadd (item moments 1) (roi_y0 roi))
                      (fdiv (roi_height roi) (Fin 2));
       roi_height := fmul (Fin 3) dy |} in
  let itN := Datatypes.S (itN st) in
  let st' := {| errx := errx; erry := erry; itN := itN; d0x := dx; d0y := dy;
                roi_new := roi_new; roi_moments := Some (roi, moments);
                printed := printed st |} in
  if (it_limit <=? itN)%nat then
    Ok (Break {| errx := errx; erry := erry; itN := itN; d0x := dx; d0y := dy;
                 roi_new := roi_new; roi_moments := Some (roi, moments);
                 printed := printed st ++ [exceeded_message] |})
  else Ok (Continue st').

(** The lines after the loop: physical units and the ellipse. *)
Definition ellipse (roi : ROI) (moments : list fl) : beam_sample :=
  let pixel_scale :=
    [pix2len (Fin 1); pix2len (Fin 1);
     square (pix2len (Fin 1)); square (pix2len (Fin 1)); square (pix2len (Fin 1))] in
  let moments := map (fun '(s, m) => fmul s m) (combine pixel_scale moments) in
  let s2x := item moments 2 in
  let s2y := item moments 3 in
  let s2xy := item moments 4 in
  let g := np_sign (fsub s2x s2y) in
  let root :=
    np_pow_half (fadd (square (fsub s2x s2y)) (fmul (Fin 4) (square s2xy))) in
  let dx :=
    fmul (fmul (Fin 2) (np_sqrt (Fin 2)))
         (np_pow_half (fadd (fadd s2x s2y) (fmul g root))) in
  let dy :=
    fmul (fmul (Fin 2) (np_sqrt (Fin 2)))
         (np_pow_half (fsub (fadd s2x s2y) (fmul g root))) in
  let phi :=
    if feq s2x s2y then fmul (fdiv (Fin libm_pi) (Fin 4)) (np_sign s2xy)
    else fmul (Fin (1 / 2))
              (np_arctan (fdiv (fmul (Fin 2) s2xy) (fsub s2x s2y))) in
  {| beamwidths := [dx; dy; phi]; roi := roi; moments := moments |}.

(** The loop alone: the state it stops in. *)
Definition refine_roi (fuel : nat) (data : ndarray) : option (result loop_state) :=
  py_while fuel loop_cond (loop_body data) (initial_state data).

(** The whole function, with the lines it printed.  [None]: the loop was
    still running after [fuel] passes. *)
Definition calculate_beamwidths (fuel : nat) (data : ndarray)
    : option (result beam_sample * list string) :=
  match refine_roi fuel data with
  | None => None
  | Some (Raise e) => Some (Raise e, [])
  | Some (Ok st) =>
      match roi_moments st with
      | None => Some (Raise NameError, printed st)
      | Some (roi, moments) => Some (Ok (ellipse roi moments), printed st)
      end
  end.

End BeamWidths.

(** ** [fit_M2] *)

(** The default wavelength, [wl=1.03E-6]. *)
Definition default_wl : Q := 103 # 100000000.

Section FitM2.

Context {M : Libm}.

(** [scipy.optimize.curve_fit] with [un.correlated_values] on its result:
    from [z], [dz] and the initial guess, the nominal values of the
    fitted [(a, b, c)], or an exception.  The optimizer is not part of
    the repository. *)
Variable curve_fit : list fl -> list fl -> list fl -> result (Q * Q * Q).

(** The initial guess [p0 = [ai, bi, ci]]. *)
Definition fit_M2_p0 (dz z : list fl) : result (list fl) :=
  di <- np_min dz ;;
  imin <- np_argmin dz ;;
  zi <- getitem z imin ;;
  dm <- np_max dz ;;
  imax <- np_argmax dz ;;
  zm <- getitem z imax ;;
  let ci := square (np_arctan (fdiv (fsub dm di) (fsub zm zi))) in
  let bi := fmul (fmul (Fin (-2)) zi) ci in
  let ai := fadd (square di) (fmul ci (square zi)) in
  Ok [ai; bi; ci].

(** The nominal value of a [uncertainties] number is a Python float:
    dividing by zero raises [ZeroDivisionError], and a power with a
    complex result raises [ValueError]. *)
Definition py_div (a b : Q) : result Q :=
  if Qeq_bool b 0 then Raise ZeroDivisionError else Ok (a / b)%Q.

Definition py_pow_half (q : Q) : result Q :=
  if Qltb q 0 then Raise ValueError else Ok (libm_sqrt q).

(** The nominal values of [[z0, d0, M2, theta, zR]], computed from the
    fitted [(a, b, c)] in the order of the source. *)
Definition derived_values (wl a b c : Q) : result (list Q) :=
  (z0 <- py_div (- b) (2 * c) ;;
   r <- py_pow_half (4 * a * c - b * b) ;;
   s <- py_pow_half c ;;
   t <- py_div 1 (2 * s) ;;
   let d0 := r * t in
   k <- py_div libm_pi (8 * wl) ;;
   r' <- py_pow_half (4 * a * c - b * b) ;;
   let M2 := k * r' in
   theta <- py_pow_half c ;;
   r'' <- py_pow_half (4 * a * c - b * b) ;;
   u <- py_div 1 (2 * c) ;;
   let zR := r'' * u in
   Ok [z0; d0; M2; theta; zR])%Q.

(** The nominal values that [fit_M2] returns (the propagated standard
    deviations are left out of the model). *)
Definition fit_M2 (dz z : list fl) (wl : Q) : result (list Q) :=
  p0 <- fit_M2_p0 dz z ;;
  '(a, b, c) <- curve_fit z dz p0 ;;
  derived_values wl a b c.

End FitM2.

(** ** [read_position] *)

Module Str.

(** [s.split(sep)] for a one-character separator. *)
Fixpoint split (sep : ascii) (s : string) : list string :=
  match s with
  | EmptyString => [EmptyString]
  | String c tl =>
      if Ascii.eqb c sep then EmptyString :: split sep tl
      else match split sep tl with
           | [] => [String c EmptyString]
           | h :: t => String c h :: t
           end
  end.

(** The characters that [str.strip()] removes. *)
Definition is_space (c : ascii) : bool :=
  let n := nat_of_ascii c in
  ((9 <=? n) && (n <=? 13) || (28 <=? n) && (n <=? 32))%nat.

Fixpoint lstrip (s : string) : string :=
  match s with
  | EmptyString => EmptyString
  | String c tl => if is_space c then lstrip tl else s
  end.

Fixpoint rstrip (s : string) : string :=
  match s with
  | EmptyString => EmptyString
  | String c tl =>
      match rstrip tl with
      | EmptyString => if is_space c then EmptyString else String c EmptyString
      | r => String c r
      end
  end.

Definition strip (s : string) : string := rstrip (lstrip s).

Definition lower_char (c : ascii) : ascii :=
  let n := nat_of_ascii c in
  if ((65 <=? n) && (n <=? 90))%nat then ascii_of_nat (n + 32) else c.

Fixpoint lower (s : string) : string :=
  match s with
  | EmptyString => EmptyString
  | String c tl => String (lower_char c) (lower tl)
  end.

End Str.

(** The factor [s] that the branches on [unit] choose. *)
Definition unit_scale (unit : string) : Q :=
  if String.eqb unit "m" then 1
  else if String.eqb unit "mm" then 1 # 1000
  else if String.eqb unit "um" then 1 # 1000000
  else if String.eqb unit "nm" then 1 # 1000000000
  else if String.eqb unit "pm" then 1 # 1000000000000
  else 1 # 1000.

Definition unit_line : nat := 2.

(** The unit that the header declares: the text after the first [=] of its
    line [unit_line]. *)
Definition header_unit (lines : list string) : result string :=
  let header := firstn unit_line lines in
  match nth_error header (unit_line - 1) with
  | None => Raise IndexError
  | Some line =>
      match nth_error (Str.split "="%char line) 1 with
      | None => Raise IndexError
      | Some field => Ok (Str.lower (Str.strip field))
      end
  end.

(** [lines] are the lines of [position.txt], [body] the values that
    [np.loadtxt] reads below its two header lines. *)
Definition read_position (lines : list string) (body : list fl) : result (list fl) :=
  unit <- header_unit lines ;;
  let s := unit_scale unit in
  Ok (map (fmul (Fin (2 * s))) body).

(** ** The consistency checks of the script *)

Definition stop {A : Type} (s : string) : result A := Raise (Exception s).

(** The identity of a Python [int]: CPython keeps one object for each of
    -5..256 and allocates any other [int] afresh. *)
Inductive object_id : Type :=
| SmallInt (n : Z)
| Allocated (address : nat).

Record pyint : Type := mk_pyint {
  int_id : object_id;
  int_value : Z
}.

(** A new [int] of value [n]; [heap] counts the objects allocated so far. *)
Definition new_int (heap : nat) (n : Z) : pyint * nat :=
  if (-5 <=? n) && (n <=? 256)
  then ({| int_id := SmallInt n; int_value := n |}, heap)
  else ({| int_id := Allocated heap; int_value := n |}, Datatypes.S heap).

(** [a is b] *)
Definition py_is (a b : pyint) : bool :=
  match int_id a, int_id b with
  | SmallInt m, SmallInt n => m =? n
  | Allocated p, Allocated q => (p =? q)%nat
  | _, _ => false
  end.

(** [np.size(a)] *)
Definition np_size {A : Type} (heap : nat) (a : list A) : pyint * nat :=
  new_int heap (Z.of_nat (length a)).

Definition mismatch_message : string := "# of images does not match positions - fix ASAP".

(** [if np.size(files) is not np.size(z): stop(...)] *)
Definition count_check {A B : Type} (files : list A) (z : list B) : result unit :=
  let '(nf, heap) := np_size 0 files in
  let '(nz, _) := np_size heap z in
  if negb (py_is nf nz) then stop mismatch_message else Ok tt.

(** ** A C library to evaluate examples with *)

(** The square root rounded down to a multiple of [2^-64 / den]; it is
    exact on the squares of rationals. *)
Definition sqrt_down (q : Q) : Q :=
  Qred (Z.sqrt (Qnum q * Zpos (Qden q) * 4 ^ 64) # (Qden q * 2 ^ 64)).

(** float64's pi. *)
Definition pi_double : Q := 884279719003555 # 281474976710656.

(** A rational approximation of the arc tangent (a Pade quotient on
    [-1, 1], reflected outside), within 0.01 rad. *)
Definition atan_approx (x : Q) : Q :=
  let pade t := (t * (15 + 4 * t * t) / (15 + 9 * t * t))%Q in
  Qred (if Qle_bool (Qabs x) 1 then pade x
        else if Qle_bool 0 x then (pi_double / 2 - pade (/ x))%Q
        else (- (pi_double / 2) - pade (/ x))%Q).

Definition eval_libm : Libm :=
  {| libm_sqrt := sqrt_down; libm_atan := atan_approx; libm_pi := pi_double |}.

(** ** Notions for the statements about [get_roi] *)

(** One axis of [get_roi]: the start of the window and the extent as the
    first [if] leaves it, then the integer extent.  [get_roi_window] runs
    [axis_start] for the columns and for the rows, then [axis_extent] for
    each ([get_roi_window_axes] below). *)
Definition axis_start (n : Z) (centre extent : fl) : result (Z * fl) :=
  let start := py_min (fsub centre (fdiv extent (Fin 2))) (of_Z (n - 2)) in
  if fle start (Fin 0) then Ok (0, fadd extent start)
  else if isnan start then Ok (0, extent)
  else l <- py_int start ;; Ok (l, extent).

Definition axis_extent (n start : Z) (extent : fl) : result Z :=
  if fgt (fadd (of_Z start) extent) (of_Z n) then Ok (n - start)
  else if isnan extent then Ok n
  else py_int extent.

(** No component is an infinity. *)
Definition no_inf (x : fl) : Prop :=
  match x with
  | PInf | NInf => False
  | _ => True
  end.

Definition roi_no_inf (r : ROI) : Prop :=
  no_inf (roi_x0 r) /\ no_inf (roi_width r) /\
  no_inf (roi_y0 r) /\ no_inf (roi_height r).



(** Frames of integers, for examples. *)
Definition frame_of (rows : list (list Z)) : ndarray :=
  {| shape0 := length rows;
     shape1 := length (hd [] rows);
     cells := map (map of_Z) rows |}.

Definition roi_of (x0 width y0 height : Q) : ROI :=
  {| roi_x0 := Fin x0; roi_width := Fin width;
     roi_y0 := Fin y0; roi_height := Fin height |}.

(** A frame of [n0] rows and [n1] columns that holds [v] everywhere. *)
Definition uniform_frame (n0 n1 : nat) (v : fl) : ndarray :=
  {| shape0 := n0; shape1 := n1; cells := repeat (repeat v n1) n0 |}.

(** ** Example inputs *)




(** A blank frame. *)
Definition zeros4 : ndarray :=
  frame_of [[0; 0; 0; 0]; [0; 0; 0; 0]; [0; 0; 0; 0]; [0; 0; 0; 0]].

(** One bright pixel. *)
Definition pixel4 : ndarray :=
  frame_of [[0; 0; 0; 0]; [0; 1; 0; 0]; [0; 0; 0; 0]; [0; 0; 0; 0]].

(** A beam with heavy tails along x, two rows high, in a frame of 8 rows
    and 52 columns: row 3 and row 4 hold [1000 / (1 + (x - 26)^2)]
    (integer division), the other rows are dark. *)
Definition heavy_tail_profile : list Z :=
  map (fun x => 1000 / (1 + (Z.of_nat x - 26) * (Z.of_nat x - 26))) (seq 0 52).

Definition heavy_tail_frame : ndarray :=
  frame_of (map (fun k => map (Z.mul k) heavy_tail_profile) [0; 0; 0; 1; 1; 0; 0; 0]).

(** ** Notions that the theorems below are stated with *)

(** [int(q)] on a rational. *)
Definition trunc (q : Q) : Z := Z.quot (Qnum q) (Zpos (Qden q)).

(** A finite float64. *)
Definition finite (x : fl) : Prop := isfinite x = true.

(** Whether the character [c] occurs in [s]. *)
Fixpoint has_char (c : ascii) (s : string) : bool :=
  match s with
  | EmptyString => false
  | String c' tl => Ascii.eqb c' c || has_char c tl
  end.

Section LoopStops.

Context {M : Libm}.

(** Where the loop that started in [st0] stops: unchanged when its
    condition is false at once, converged after some passes, or at the
    cap, where it prints. *)
Definition stopped (st0 st : loop_state) : Prop :=
  (itN st0 <= itN st <= it_limit)%nat /\
  (loop_cond st = false /\ printed st = [] /\ st = st0 \/
   loop_cond st = false /\ (itN st < it_limit)%nat /\ printed st = [] /\
     (itN st0 < itN st)%nat /\ (exists rm, roi_moments st = Some rm) \/
   itN st = it_limit /\ printed st = [exceeded_message] /\
     (exists rm, roi_moments st = Some rm)).

End LoopStops.

(** The state in which the loop leaves [heavy_tail_frame]. *)
Definition heavy_tail_stop : loop_state :=
  match refine_roi (M := eval_libm) it_limit heavy_tail_frame with
  | Some (Ok st) => st
  | _ => initial_state heavy_tail_frame
  end.


(** ** Notions for uniform frames *)

(** The sum of [f] over a list of indices. *)
Fixpoint qsum (f : nat -> Q) (l : list nat) : Q :=
  match l with
  | [] => 0
  | i :: tl => f i + qsum f tl
  end.

(** The index [i] as a rational, and as the coordinate of a pixel. *)
Definition idx (i : nat) : Q := inject_Z (Z.of_nat i).
Definition coord (i : nat) : fl := fin (idx i).

(** What the theorems ask of the C library's square root: it is not
    negative and its square is at least half the argument. *)
Definition sqrt_within_factor_2 (M : Libm) : Prop :=
  forall x : Q, (0 <= x)%Q ->
    (0 <= libm_sqrt x)%Q /\ (x <= 2 * (libm_sqrt x * libm_sqrt x))%Q.

(** The standard deviation that [np.sqrt] finds on an axis of [n] equally
    weighted pixels, and four times it, in lowest terms. *)
Definition sd {M : Libm} (n : nat) : Q :=
  libm_sqrt (Qred ((idx n * idx n - 1) / 12)).

Definition d4 {M : Libm} (n : nat) : Q := Qred (4 * sd n).

(** ** [gaussianbeamwaist] *)

Section GaussianBeam.

Context {M : Libm}.

(** [z] becomes a float array; [z0], [d0], [M2], [wl] and [const] are the
    Python floats that the script passes (the nominal values of the fit),
    so [wl/(np.pi*w0)] raises when [w0] is zero. *)
Definition gaussianbeamwaist (z : list fl) (z0 d0 M2 wl const : Q)
    : result (list fl) :=
  let w0 := (d0 / 2)%Q in
  k <- py_div wl (libm_pi * w0) ;;
  Ok (map (fun zi =>
             fadd (np_pow_half
                     (fadd (Fin (w0 * w0))
                           (fmul (Fin (M2 * M2 * (k * k))) (square (fsub zi (Fin z0))))))
                  (Fin const))
          z).

End GaussianBeam.

(** ** The focus image of the script *)

(** [focus_number = np.argmin(np.abs(valx[0]-z))] *)
Definition focus_number (z0 : Q) (z : list fl) : result nat :=
  np_argmin (map (fun zi => fabs (fsub (Fin z0) zi)) z).

(** ** [flatten_rgb] *)

(** An image as [plt.imread] returns it for a colour file: rows, columns
    and channels of unsigned integers, [im[row][column][channel]]. *)
Record image : Type := mk_image {
  im_shape0 : nat;
  im_shape1 : nat;
  im_shape2 : nat;
  pixels : list (list (list Z))
}.

(** [im[:,:,i]] *)
Definition channel (im : image) (i : nat) : list (list Z) :=
  map (map (fun px => nth i px 0)) (pixels im).

(** [(mask).sum()], stored in a float array. *)
Definition count_where (p : Z -> bool) (a : list (list Z)) : fl :=
  of_Z (Z.of_nat (length (filter p (concat a)))).

(** [data += channel] on [uint32] cells. *)
Definition uint32 (v : Z) : Z := v mod 2 ^ 32.

Definition add_uint32 (data ch : list (list Z)) : list (list Z) :=
  map (fun '(row, crow) => map (fun '(d, v) => uint32 (d + v)) (combine row crow))
      (combine data ch).

(** [a[i] = v] for [i] within [a]. *)
Definition setitem (a : list fl) (i : nat) (v : fl) : list fl :=
  firstn i a ++ v :: skipn (S i) a.

(** The fraction [Nsat[i]/Nnnz[i]] of channel [i]. *)
Definition saturated_fraction (im : image) (bits : nat) (i : nat) : fl :=
  let Nnnz := count_where (fun v => negb (v =? 0)) (channel im i) in
  let Nsat := count_where (fun v => 2 ^ Z.of_nat bits - 1 <=? v) (channel im i) in
  fdiv Nsat Nnnz.

(** One pass of the loop over the channels, on [(data, sat_det)]. *)
Definition flatten_rgb_channel (im : image) (bits : nat) (satlim : fl)
    (acc : list (list Z) * list fl) (i : nat) : list (list Z) * list fl :=
  let '(data, sat_det) := acc in
  if fle (saturated_fraction im bits i) satlim
  then (add_uint32 data (channel im i), sat_det)
  else (data, setitem sat_det i (Fin 1)).

(** The loop: the summed channels and the flags. *)
Definition flatten_rgb_loop (im : image) (bits : nat) (satlim : fl)
    : list (list Z) * list fl :=
  fold_left (flatten_rgb_channel im bits satlim) (seq 0 (im_shape2 im))
            (repeat (repeat 0 (im_shape1 im)) (im_shape0 im),
             repeat (Fin 0) (im_shape2 im)).

(** [data.astype(float)] *)
Definition astype_float (n0 n1 : nat) (data : list (list Z)) : ndarray :=
  {| shape0 := n0; shape1 := n1; cells := map (map of_Z) data |}.

(** The result [(output, sat_det)], with the warnings of [normalize].
    [im[...,0]] raises on an image without channels. *)
Definition flatten_rgb (im : image) (bits : nat) (satlim : fl)
    : result (ndarray * list fl) * list string :=
  match im_shape2 im with
  | O => (Raise IndexError, [])
  | S _ =>
      let '(data, sat_det) := flatten_rgb_loop im bits satlim in
      let '(output, warned) :=
        normalize (astype_float (im_shape0 im) (im_shape1 im) data) (Fin 0) in
      (out <- output ;; Ok (out, sat_det), warned)
  end.

(** The defaults of the signature and of the script: [bits=8],
    [satlim=0.001]. *)
Definition BITS : nat := 8.
Definition SATLIM : fl := Fin (1 # 1000).

(** ** The loop of the script over the image files *)

Section Script.

Context {M : Libm}.

(** One pass of [for f in files], on the image that [plt.imread] returned:
    what is appended to [beam_stats], [chl_sat] and [img_roi], with the
    warnings and the printed lines in their order. *)
Definition analyse_image (fuel : nat) (im : image)
    : option (result (list fl * list fl * ROI) * list string) :=
  match flatten_rgb im BITS SATLIM with
  | (Raise e, warned) => Some (Raise e, warned)
  | (Ok (data, sat), warned) =>
      match calculate_beamwidths fuel data with
      | None => None
      | Some (Raise e, out) => Some (Raise e, warned ++ out)
      | Some (Ok s, out) => Some (Ok (beamwidths s, sat, roi s), warned ++ out)
      end
  end.

End Script.

(** ** Notions for the further theorems *)

(** The request whose four components are NaN. *)
Definition nan_roi : ROI :=
  {| roi_x0 := NaN; roi_width := NaN; roi_y0 := NaN; roi_height := NaN |}.

(** The flag that [flatten_rgb] leaves for channel [i]. *)
Definition channel_flag (im : image) (bits : nat) (satlim : fl) (i : nat) : fl :=
  if fle (saturated_fraction im bits i) satlim then Fin 0 else Fin 1.

(** Channel [i] of the image holds no non-zero pixel. *)
Definition dark_channel (im : image) (i : nat) : Prop :=
  Forall (Forall (fun px => nth i px 0 = 0)) (pixels im).

(** A cell between 0 and 1. *)
Definition in_unit_interval (v : fl) : Prop :=
  exists q, v = Fin q /\ (0 <= q <= 1)%Q.

(** A 2x2 image of three channels: the first is unsaturated, the second is
    dark and the third is saturated in three of its three lit pixels. *)
Definition rgb_example : image :=
  {| im_shape0 := 2; im_shape1 := 2; im_shape2 := 3;
     pixels := [[[10; 0; 255]; [20; 0; 255]]; [[30; 0; 255]; [50; 0; 0]]] |}.

(** A black 2x2 image of three channels. *)
Definition black_image : image :=
  {| im_shape0 := 2; im_shape1 := 2; im_shape2 := 3;
     pixels := [[[0; 0; 0]; [0; 0; 0]]; [[0; 0; 0]; [0; 0; 0]]] |}.

(** ** Notions for the moments of a frame of finite cells *)

(** The frame of [n0] rows and [n1] columns whose cell in row [j] and
    column [i] is [c j i]. *)
Definition table_frame (n0 n1 : nat) (c : nat -> nat -> Q) : ndarray :=
  {| shape0 := n0; shape1 := n1;
     cells := map (fun j => map (fun i => Fin (c j i)) (seq 0 n1)) (seq 0 n0) |}.


(** The sum of [W i j] over the pixels in column [i] and row [j], weighted
    with the cells. *)
Definition wsum (n0 n1 : nat) (c W : nat -> nat -> Q) : Q :=
  qsum (fun j => qsum (fun i => (c j i * W i j)%Q) (seq 0 n1)) (seq 0 n0).

(** The weighted mean of [W]. *)
Definition wmean (n0 n1 : nat) (c W : nat -> nat -> Q) : Q :=
  (wsum n0 n1 c W / wsum n0 n1 c (fun _ _ => 1))%Q.

(** The five moments in closed form, for the pixel pitches [sx], [sy]. *)
Definition mean_x (n0 n1 : nat) (c : nat -> nat -> Q) (sx : Q) : Q :=
  wmean n0 n1 c (fun i _ => (sx * idx i)%Q).

Definition mean_y (n0 n1 : nat) (c : nat -> nat -> Q) (sy : Q) : Q :=
  wmean n0 n1 c (fun _ j => (sy * idx j)%Q).

Definition var_x (n0 n1 : nat) (c : nat -> nat -> Q) (sx : Q) : Q :=
  wmean n0 n1 c (fun i _ => ((sx * idx i - mean_x n0 n1 c sx)
                             * (sx * idx i - mean_x n0 n1 c sx))%Q).

Definition var_y (n0 n1 : nat) (c : nat -> nat -> Q) (sy : Q) : Q :=
  wmean n0 n1 c (fun _ j => ((sy * idx j - mean_y n0 n1 c sy)
                             * (sy * idx j - mean_y n0 n1 c sy))%Q).

Definition cov_xy (n0 n1 : nat) (c : nat -> nat -> Q) (sx sy : Q) : Q :=
  wmean n0 n1 c (fun i j => ((sx * idx i - mean_x n0 n1 c sx)
                             * (sy * idx j - mean_y n0 n1 c sy))%Q).



(** The frame of [n0] rows and [n1] columns whose only lit pixel, of value
    [v], is in row [r] and column [s]. *)
Definition single_pixel_frame (n0 n1 r s : nat) (v : Q) : ndarray :=
  table_frame n0 n1 (fun j i => if (j =? r)%nat && (i =? s)%nat then v else 0%Q).

(** * Theorems *)


(** ** Comparisons and truncation of rationals *)

Lemma Qle_bool_spec (a b : Q) : reflect (a <= b)%Q (Qle_bool a b).
Proof.
  destruct (Qle_bool a b) eqn:E; constructor.
  - now apply Qle_bool_iff.
  - intro H. apply Qle_bool_iff in H. congruence.
Qed.

Lemma Qltb_spec (a b : Q) : reflect (a < b)%Q (Qltb a b).
Proof.
  unfold Qltb. destruct (Qle_bool_spec b a); constructor.
  - now apply Qle_not_lt.
  - now apply Qnot_le_lt.
Qed.

Lemma Qeq_bool_spec (a b : Q) : reflect (a == b)%Q (Qeq_bool a b).
Proof.
  destruct (Qeq_bool a b) eqn:E; constructor.
  - now apply Qeq_bool_iff.
  - intro H. apply Qeq_bool_iff in H. congruence.
Qed.


Lemma half_twice (x : Q) : (x / 2 + x / 2 == x)%Q.
Proof. field. Qed.


Lemma trunc_floor q : (0 <= q)%Q -> trunc q = Qfloor q.
Proof.
  destruct q as [n d]. unfold trunc, Qfloor, Qle. simpl. intro H.
  apply Z.quot_div_nonneg; lia.
Qed.

Lemma trunc_nonpos q : (q <= 0)%Q -> trunc q <= 0.
Proof.
  destruct q as [n d]. unfold trunc, Qle. simpl. intro H.
  assert (n <= 0) by lia.
  rewrite <- (Z.opp_involutive n), Z.quot_opp_l by lia.
  assert (0 <= Z.quot (- n) (Z.pos d)) by (apply Z.quot_pos; lia). lia.
Qed.

Lemma trunc_le q m : (q <= inject_Z m)%Q -> 0 <= m -> trunc q <= m.
Proof.
  intros H Hm. destruct (Qlt_le_dec q 0) as [Hneg | Hpos].
  - pose proof (trunc_nonpos q (Qlt_le_weak _ _ Hneg)). lia.
  - rewrite trunc_floor by assumption.
    rewrite <- (Qfloor_Z m). now apply Qfloor_resp_le.
Qed.

Lemma trunc_ge q m : (inject_Z m <= q)%Q -> 0 <= m -> m <= trunc q.
Proof.
  intros H Hm. rewrite trunc_floor.
  - rewrite <- (Qfloor_Z m) at 1. now apply Qfloor_resp_le.
  - apply Qle_trans with (inject_Z m); [|assumption].
    change (inject_Z 0 <= inject_Z m)%Q. rewrite <- Zle_Qle. assumption.
Qed.

Lemma inject_Z_sub a b : (inject_Z (a - b) == inject_Z a - inject_Z b)%Q.
Proof. unfold Z.sub. rewrite inject_Z_plus, inject_Z_opp. reflexivity. Qed.

Lemma trunc_eq q m : (q == inject_Z m)%Q -> 0 <= m -> trunc q = m.
Proof.
  intros H Hm. apply Z.le_antisymm.
  - apply trunc_le; [rewrite H; apply Qle_refl | assumption].
  - apply trunc_ge; [rewrite H; apply Qle_refl | assumption].
Qed.

(** ** [get_roi] *)


Lemma axis_start_fin n c x :
  exists s0, (s0 == c - x / 2)%Q /\
    axis_start n (Fin c) (Fin x) =
    if Qltb (inject_Z (n - 2)) s0 then
      if Qle_bool (inject_Z (n - 2)) 0
      then Ok (0, Fin (Qred (x + inject_Z (n - 2))))
      else Ok (trunc (inject_Z (n - 2)), Fin x)
    else
      if Qle_bool s0 0 then Ok (0, Fin (Qred (x + s0)))
      else Ok (trunc s0, Fin x).
Proof.
  exists (Qred (c + - Qred (x / 2))). split.
  - rewrite !Qred_correct. reflexivity.
  - unfold axis_start, py_min, of_Z.
    cbn [fdiv fsub fneg fadd fin flt]. change (Qeq_bool 2 0) with false.
    cbn [fdiv fsub fneg fadd fin flt].
    destruct (Qltb (inject_Z (n - 2)) (Qred (c + - Qred (x / 2))));
      cbn [fle isnan fadd fin];
      match goal with |- context [Qle_bool ?a ?b] => destruct (Qle_bool a b) end;
      reflexivity.
Qed.


Lemma get_roi_window_axes data r :
  get_roi_window data r =
  ('(l, ew) <- axis_start (Z.of_nat (shape1 data)) (roi_x0 r) (roi_width r) ;;
   '(b, eh) <- axis_start (Z.of_nat (shape0 data)) (roi_y0 r) (roi_height r) ;;
   w <- axis_extent (Z.of_nat (shape1 data)) l ew ;;
   h <- axis_extent (Z.of_nat (shape0 data)) b eh ;;
   Ok {| w_bottom := b; w_height := h; w_left := l; w_width := w |}).
Proof. reflexivity. Qed.

Lemma slice_len_inside n start len :
  0 <= start -> 0 <= len -> start + len <= Z.of_nat n ->
  slice_len n start (start + len) = Z.to_nat len.
Proof.
  intros H0 H1 H2. unfold slice_len, slice_bound.
  destruct (start + len <? 0) eqn:E1; [apply Z.ltb_lt in E1; lia|].
  destruct (start <? 0) eqn:E2; [apply Z.ltb_lt in E2; lia|].
  f_equal. lia.
Qed.










(** ** Moments *)

Lemma fdiv_by_zero x a : (a == 0)%Q -> isfinite (fdiv x (Fin a)) = false.
Proof.
  intro Ha. apply Qeq_bool_iff in Ha.
  destruct x as [q | | |]; cbn [fdiv]; rewrite ?Ha.
  - destruct (Qeq_bool q 0); [reflexivity|]. destruct (Qltb 0 q); reflexivity.
  - destruct (Qle_bool 0 a); reflexivity.
  - destruct (Qle_bool 0 a); reflexivity.
  - reflexivity.
Qed.

(** *** The blank frame, whatever its size *)

Lemma fmul_zero_l q : fmul (Fin 0) (Fin q) = Fin 0.
Proof.
  cbn [fmul fin]. apply (f_equal Fin).
  transitivity (Qred 0); [apply Qred_complete; ring | reflexivity].
Qed.

Lemma fadd_nan_r x : fadd x NaN = NaN.
Proof. destruct x; reflexivity. Qed.

Lemma fmul_nan_l x : fmul NaN x = NaN.
Proof. reflexivity. Qed.

Lemma fmul_nan_r x : fmul x NaN = NaN.
Proof. destruct x; reflexivity. Qed.

Lemma fold_fadd_nan l : fold_left fadd l NaN = NaN.
Proof. induction l as [|x l IH]; [reflexivity | exact IH]. Qed.

Lemma np_sum_zeros l : Forall (eq (Fin 0)) l -> np_sum l = Fin 0.
Proof.
  unfold np_sum. induction 1 as [|x l Hx _ IH]; [reflexivity|].
  subst x. exact IH.
Qed.

Lemma np_sum_nans l : l <> [] -> Forall (eq NaN) l -> np_sum l = NaN.
Proof.
  unfold np_sum. intros Hne Hall. destruct Hall as [|x l Hx _]; [contradiction|].
  subst x. cbn [fold_left]. apply fold_fadd_nan.
Qed.


Lemma finite_fsub x y : finite x -> finite y -> finite (fsub x y).
Proof. destruct x, y; intros; try discriminate; reflexivity. Qed.

Lemma finite_half x : finite x -> finite (fdiv x (Fin 2)).
Proof. destruct x; intros; try discriminate; reflexivity. Qed.

Lemma gradient_from_spec prev l :
  length (gradient_from prev l) = length l /\
  (finite prev -> Forall finite l -> Forall finite (gradient_from prev l)).
Proof.
  revert prev. induction l as [|cur l IH]; intro prev; [split; [reflexivity | constructor]|].
  destruct l as [|next l].
  - split; [reflexivity|]. intros Hp Hl. inversion Hl; subst.
    constructor; [now apply finite_fsub | constructor].
  - destruct (IH cur) as [IHlen IHfin]. split.
    + cbn [gradient_from length] in *. now rewrite IHlen.
    + intros Hp Hl. inversion Hl as [|? ? Hc Hl']; subst.
      inversion Hl' as [|? ? Hn _]; subst.
      cbn [gradient_from]. constructor.
      * apply finite_half. now apply finite_fsub.
      * now apply IHfin.
Qed.

Lemma np_gradient_ok f :
  (2 <= length f)%nat ->
  exists g, np_gradient f = Ok g /\ length g = length f /\
            (Forall finite f -> Forall finite g).
Proof.
  destruct f as [|f0 [|f1 tl]]; cbn [length]; try lia. intros _.
  destruct (gradient_from_spec f0 (f1 :: tl)) as [Hlen Hfin].
  eexists. split; [reflexivity|]. split.
  - cbn [length] in *. now rewrite Hlen.
  - intros Hf. inversion Hf as [|? ? H0 Hf']; subst.
    inversion Hf' as [|? ? H1 _]; subst.
    constructor; [now apply finite_fsub | now apply Hfin].
Qed.

Lemma scaled_arange_spec s n :
  length (map (fmul (Fin s)) (np_arange n)) = n /\
  Forall finite (map (fmul (Fin s)) (np_arange n)).
Proof.
  unfold np_arange. split.
  - now rewrite !length_map, length_seq.
  - rewrite map_map. apply Forall_map, Forall_forall. intros; reflexivity.
Qed.

(** Every term of the sum satisfies [P] when every cell's term does. *)
Lemma grid_terms_forall (P : fl -> Prop) data (x gx y gy : list fl)
    (term : fl -> fl -> fl -> fl) :
  (forall row d xi gxi yj gyj,
     In row (cells data) -> In d row -> In xi x -> In gxi gx -> In yj y -> In gyj gy ->
     P (fmul (fmul (term d xi yj) gxi) gyj)) ->
  Forall P
    (concat
       (map (fun '(row, (yj, gyj)) =>
               map (fun '(d, (xi, gxi)) => fmul (fmul (term d xi yj) gxi) gyj)
                   (combine row (combine x gx)))
            (combine (cells data) (combine y gy)))).
Proof.
  intro H. apply Forall_concat, Forall_map, Forall_forall.
  intros [row [yj gyj]] Hin.
  pose proof (in_combine_l _ _ _ _ Hin) as Hrow.
  apply in_combine_r in Hin.
  pose proof (in_combine_l _ _ _ _ Hin) as Hy.
  pose proof (in_combine_r _ _ _ _ Hin) as Hgy.
  apply Forall_map, Forall_forall. intros [d [xi gxi]] Hin'.
  pose proof (in_combine_l _ _ _ _ Hin') as Hd.
  apply in_combine_r in Hin'.
  pose proof (in_combine_l _ _ _ _ Hin') as Hx.
  pose proof (in_combine_r _ _ _ _ Hin') as Hgx.
  now apply (H row).
Qed.

Lemma grid_terms_nonempty data (x gx y gy : list fl)
    (term : fl -> fl -> fl -> fl) :
  (1 <= shape0 data)%nat -> (1 <= shape1 data)%nat -> well_shaped data ->
  length x = shape1 data -> length gx = shape1 data ->
  length y = shape0 data -> length gy = shape0 data ->
  concat
    (map (fun '(row, (yj, gyj)) =>
            map (fun '(d, (xi, gxi)) => fmul (fmul (term d xi yj) gxi) gyj)
                (combine row (combine x gx)))
         (combine (cells data) (combine y gy))) <> [].
Proof.
  intros H0 H1 [Hrows Hcols] Hx Hgx Hy Hgy.
  destruct (cells data) as [|row rows]; [cbn in Hrows; lia|].
  inversion Hcols as [|? ? Hrow _]; subst.
  destruct y as [|y0 y]; [cbn in Hy; lia|].
  destruct gy as [|gy0 gy]; [cbn in Hgy; lia|].
  destruct row as [|d row]; [cbn in Hrow; lia|].
  destruct x as [|x0 x]; [cbn in Hx; lia|].
  destruct gx as [|gx0 gx]; [cbn in Hgx; lia|].
  discriminate.
Qed.

Lemma uniform_frame_well_shaped n0 n1 v : well_shaped (uniform_frame n0 n1 v).
Proof.
  split; cbn [cells shape0 shape1 uniform_frame].
  - apply repeat_length.
  - apply Forall_forall. intros row Hin. apply repeat_spec in Hin. subst.
    apply repeat_length.
Qed.

Lemma uniform_frame_cell n0 n1 v row d :
  In row (cells (uniform_frame n0 n1 v)) -> In d row -> d = v.
Proof.
  cbn [cells uniform_frame]. intros Hrow Hd.
  apply repeat_spec in Hrow. subst row. now apply repeat_spec in Hd.
Qed.

Lemma finite_is_fin x : finite x -> exists q, x = Fin q.
Proof. destruct x; intro H; try discriminate. now eexists. Qed.

Lemma blank_frame_moments n0 n1 :
  (2 <= n0)%nat -> (2 <= n1)%nat ->
  total_weight (uniform_frame n0 n1 (Fin 0)) default_scale = Ok (Fin 0) /\
  calculate_2D_moments (uniform_frame n0 n1 (Fin 0)) default_scale true
    = Ok [NaN; NaN; NaN; NaN; NaN].
Proof.
  intros H0 H1. unfold total_weight, calculate_2D_moments, default_scale.
  cbn [fst snd shape0 shape1 uniform_frame].
  destruct (scaled_arange_spec 1 n1) as [Hxl Hxf].
  destruct (scaled_arange_spec 1 n0) as [Hyl Hyf].
  set (x := map (fmul (Fin 1)) (np_arange n1)) in *.
  set (y := map (fmul (Fin 1)) (np_arange n0)) in *.
  destruct (np_gradient_ok x) as (gx & -> & Hgxl & Hgxf); [lia|].
  destruct (np_gradient_ok y) as (gy & -> & Hgyl & Hgyf); [lia|].
  specialize (Hgxf Hxf). specialize (Hgyf Hyf). cbn [bind].
  fold (uniform_frame n0 n1 (Fin 0)).
  set (data := uniform_frame n0 n1 (Fin 0)).
  assert (Hzero : forall term,
             (forall xi yj, finite xi -> finite yj -> term (Fin 0) xi yj = Fin 0) ->
             grid_sum data x gx y gy term = Fin 0).
  { intros term Hterm. unfold grid_sum. apply np_sum_zeros, grid_terms_forall.
    intros row d xi gxi yj gyj Hrow Hd Hxi Hgxi Hyj Hgyj.
    rewrite (uniform_frame_cell _ _ _ _ _ Hrow Hd).
    rewrite Forall_forall in Hxf, Hyf, Hgxf, Hgyf.
    rewrite Hterm by auto.
    destruct (finite_is_fin gxi (Hgxf _ Hgxi)) as [a ->].
    destruct (finite_is_fin gyj (Hgyf _ Hgyj)) as [b ->].
    now rewrite !fmul_zero_l. }
  assert (Hnan : forall term,
             (forall d xi yj, term d xi yj = NaN) ->
             grid_sum data x gx y gy term = NaN).
  { intros term Hterm. unfold grid_sum. apply np_sum_nans.
    - apply grid_terms_nonempty; cbn [shape0 shape1 data uniform_frame];
        try lia; try congruence. apply uniform_frame_well_shaped.
    - apply grid_terms_forall. intros. now rewrite Hterm. }
  rewrite (Hzero (fun d _ _ => d)) by reflexivity. split; [reflexivity|].
  rewrite (Hzero (fun d xi _ => fmul d xi)).
  2:{ intros xi yj Hxi _. destruct (finite_is_fin xi Hxi) as [a ->]. apply fmul_zero_l. }
  rewrite (Hzero (fun d _ yj => fmul d yj)).
  2:{ intros xi yj _ Hyj. destruct (finite_is_fin yj Hyj) as [a ->]. apply fmul_zero_l. }
  change (fdiv (Fin 0) (Fin 0)) with NaN.
  rewrite !Hnan; [reflexivity | | |]; intros d xi yj;
    unfold square, fsub; cbn [fneg];
    rewrite ?fadd_nan_r, ?fmul_nan_r, ?fmul_nan_l; reflexivity.
Qed.

(** C1, as amended.  When the total weighted intensity [A] is zero,
    [calculate_2D_moments] does not fail: it returns the five moments, and
    each of them is an infinity or NaN; on an all-zero frame of at least 2
    rows and 2 columns all five are NaN. *)
Theorem moments_of_zero_weight data sc a :
  total_weight data sc = Ok (Fin a) -> (a == 0)%Q ->
  (exists avgx avgy sig2x sig2y sig2xy,
     calculate_2D_moments data sc true = Ok [avgx; avgy; sig2x; sig2y; sig2xy] /\
     isfinite avgx = false /\ isfinite avgy = false /\
     isfinite sig2x = false /\ isfinite sig2y = false /\ isfinite sig2xy = false) /\
  (forall n0 n1,
     data = uniform_frame n0 n1 (Fin 0) -> sc = default_scale ->
     (2 <= n0)%nat -> (2 <= n1)%nat ->
     calculate_2D_moments data sc true = Ok [NaN; NaN; NaN; NaN; NaN]).
Proof.
  intros HA Ha. split.
  - unfold total_weight in HA. unfold calculate_2D_moments.
    destruct (np_gradient (map (fmul (fst sc)) (np_arange (shape1 data)))) as [dx | e];
      [|discriminate HA].
    destruct (np_gradient (map (fmul (snd sc)) (np_arange (shape0 data)))) as [dy | e];
      [|discriminate HA].
    cbn [bind] in *. injection HA as HA. rewrite HA.
    do 5 eexists. split; [reflexivity|].
    repeat split; apply fdiv_by_zero; exact Ha.
  - intros n0 n1 -> -> H0 H1. now apply blank_frame_moments.
Qed.

(** C1: the amended statement on a blank 4x4 frame. *)
Lemma moments_of_zero_weight_witness :
  (exists avgx avgy sig2x sig2y sig2xy,
     calculate_2D_moments zeros4 default_scale true
       = Ok [avgx; avgy; sig2x; sig2y; sig2xy] /\
     isfinite avgx = false /\ isfinite avgy = false /\
     isfinite sig2x = false /\ isfinite sig2y = false /\ isfinite sig2xy = false) /\
  (forall n0 n1,
     zeros4 = uniform_frame n0 n1 (Fin 0) -> default_scale = default_scale ->
     (2 <= n0)%nat -> (2 <= n1)%nat ->
     calculate_2D_moments zeros4 default_scale true = Ok [NaN; NaN; NaN; NaN; NaN]).
Proof.
  apply (moments_of_zero_weight zeros4 default_scale 0).
  - vm_compute. reflexivity.
  - reflexivity.
Defined.

(** C1 as stated fails: on a blank 4x4 frame [A] is 0 and the function
    returns five NaN instead of failing. *)
Lemma blank_frame_moments_are_nan :
  total_weight zeros4 default_scale = Ok (Fin 0) /\
  calculate_2D_moments zeros4 default_scale true = Ok [NaN; NaN; NaN; NaN; NaN].
Proof. split; vm_compute; reflexivity. Qed.

(** ** [normalize] *)

Lemma map_cells_ones f n0 n1 :
  map_cells f (np_ones n0 n1) = uniform_frame n0 n1 (f (Fin 1)).
Proof.
  unfold map_cells, np_ones, uniform_frame. cbn [shape0 shape1 cells].
  now rewrite !map_repeat.
Qed.



Lemma fold_min2_const v l :
  Forall (eq (Fin v)) l -> fold_left min2 l (Fin v) = Fin v.
Proof.
  induction 1 as [|x l Hx _ IH]; [reflexivity|]. subst x. cbn [fold_left].
  replace (min2 (Fin v) (Fin v)) with (Fin v); [exact IH|].
  unfold min2. cbn [isnan]. now destruct (flt (Fin v) (Fin v)).
Qed.

Lemma fold_max2_const v l :
  Forall (eq (Fin v)) l -> fold_left max2 l (Fin v) = Fin v.
Proof.
  induction 1 as [|x l Hx _ IH]; [reflexivity|]. subst x. cbn [fold_left].
  replace (max2 (Fin v) (Fin v)) with (Fin v); [exact IH|].
  unfold max2. cbn [isnan]. now destruct (flt (Fin v) (Fin v)).
Qed.

(** A uniform frame is a frame whose maximum equals its minimum. *)
Lemma uniform_frame_min_max n0 n1 v :
  (1 <= n0)%nat -> (1 <= n1)%nat ->
  np_min (concat (cells (uniform_frame n0 n1 (Fin v)))) = Ok (Fin v) /\
  np_max (concat (cells (uniform_frame n0 n1 (Fin v)))) = Ok (Fin v).
Proof.
  intros H0 H1.
  assert (Hall : Forall (eq (Fin v)) (concat (cells (uniform_frame n0 n1 (Fin v))))).
  { apply Forall_concat, Forall_forall. intros row Hrow. apply Forall_forall.
    intros d Hd. symmetry. eapply uniform_frame_cell; eassumption. }
  destruct n0 as [|n0]; [lia|]. destruct n1 as [|n1]; [lia|].
  cbn [uniform_frame cells repeat concat app] in *.
  inversion Hall as [|? ? _ Hall']; subst.
  unfold np_min, np_max. now rewrite fold_min2_const, fold_max2_const.
Qed.


(** ** The refinement loop *)

Section Loop.

Context {M : Libm}.
Variable data : ndarray.

(** One pass: the counter goes up by one; the pass breaks exactly when
    the counter reaches [it_limit], and then prints. *)
Lemma loop_body_continue st st' :
  loop_body data st = Ok (Continue st') ->
  itN st' = S (itN st) /\ (S (itN st) < it_limit)%nat /\
  printed st' = printed st /\ exists rm, roi_moments st' = Some rm.
Proof.
  unfold loop_body.
  destruct (get_roi data (roi_new st)) as [sub | e]; [|discriminate].
  cbn [bind].
  destruct (calculate_2D_moments sub default_scale true) as [m | e]; [|discriminate].
  cbn [bind]. cbv zeta. destruct (it_limit <=? S (itN st))%nat eqn:E; [discriminate|].
  intro H. injection H as <-. cbn. apply Nat.leb_gt in E.
  repeat split; try lia. now eexists.
Qed.

Lemma loop_body_break st st' :
  loop_body data st = Ok (Break st') ->
  itN st' = S (itN st) /\ (it_limit <= S (itN st))%nat /\
  printed st' = printed st ++ [exceeded_message] /\
  exists rm, roi_moments st' = Some rm.
Proof.
  unfold loop_body.
  destruct (get_roi data (roi_new st)) as [sub | e]; [|discriminate].
  cbn [bind].
  destruct (calculate_2D_moments sub default_scale true) as [m | e]; [|discriminate].
  cbn [bind]. cbv zeta. destruct (it_limit <=? S (itN st))%nat eqn:E; [|discriminate].
  intro H. injection H as <-. cbn. apply Nat.leb_le in E.
  repeat split; try lia. now eexists.
Qed.

(** The loop stops within the passes that the counter leaves, and more
    fuel changes nothing. *)
Lemma loop_terminates k extra st :
  (itN st < it_limit)%nat -> (it_limit <= itN st + k)%nat ->
  exists r, py_while k loop_cond (loop_body data) st = Some r /\
            py_while (k + extra) loop_cond (loop_body data) st = Some r.
Proof.
  revert st. induction k as [|k IH]; intros st Hlt Hle; [lia|].
  cbn [py_while Nat.add]. destruct (loop_cond st); [|now eexists].
  destruct (loop_body data st) as [[st' | st'] | e] eqn:Hbody;
    try (now eexists).
  destruct (loop_body_continue _ _ Hbody) as (HitN & Hlim & _).
  apply IH; lia.
Qed.


Lemma loop_stops_in fuel st0 st :
  (itN st0 < it_limit)%nat -> printed st0 = [] ->
  py_while fuel loop_cond (loop_body data) st0 = Some (Ok st) ->
  stopped st0 st.
Proof.
  revert st0. induction fuel as [|fuel IH]; intros st0 Hlt Hpr; [discriminate|].
  cbn [py_while]. destruct (loop_cond st0) eqn:Hcond.
  - destruct (loop_body data st0) as [[st' | st'] | e] eqn:Hbody; [| |discriminate].
    + destruct (loop_body_continue _ _ Hbody) as (HitN & Hlim & Hpr' & Hrm).
      intro Hrun. apply IH in Hrun; [|lia|congruence].
      destruct Hrun as [Hrange Hcases]. split; [lia|].
      destruct Hcases as [(Hc & Hp & ->) | [(Hc & Hl & Hp & Hgt & Hr) | Hcap]].
      * right; left. repeat split; try assumption; lia.
      * right; left. repeat split; try assumption; lia.
      * right; right. exact Hcap.
    + destruct (loop_body_break _ _ Hbody) as (HitN & Hlim & Hpr' & Hrm).
      intro H. injection H as <-. split; [lia|]. right; right.
      rewrite Hpr in Hpr'. repeat split; try assumption. lia.
  - intro H. injection H as <-. split; [lia|]. left. now repeat split.
Qed.

Lemma initial_state_runs : loop_cond (initial_state data) = true.
Proof. reflexivity. Qed.

End Loop.

(** ** Uniform frames *)

(** *** Arithmetic in lowest terms *)

Lemma fin_eq (p q : Q) : (p == q)%Q -> fin p = fin q.
Proof. intro H. unfold fin. f_equal. now apply Qred_complete. Qed.

Lemma of_Z_fin z : of_Z z = fin (inject_Z z).
Proof.
  unfold of_Z, fin. f_equal. symmetry. apply Qcanon.Qred_identity.
  cbn [inject_Z Qnum Qden]. apply Z.gcd_1_r.
Qed.

Lemma fadd_fin p q : fadd (fin p) (fin q) = fin (p + q).
Proof. cbn [fadd fin]. apply fin_eq. now rewrite !Qred_correct. Qed.

Lemma fsub_fin p q : fsub (fin p) (fin q) = fin (p - q).
Proof.
  unfold fsub. cbn [fneg fadd fin]. apply fin_eq. now rewrite !Qred_correct.
Qed.

Lemma fmul_fin p q : fmul (fin p) (fin q) = fin (p * q).
Proof. cbn [fmul fin]. apply fin_eq. now rewrite !Qred_correct. Qed.

Lemma fmul_Fin_fin p q : fmul (Fin p) (fin q) = fin (p * q).
Proof. cbn [fmul fin]. apply fin_eq. now rewrite !Qred_correct. Qed.

Lemma fdiv_fin p q : ~ (q == 0)%Q -> fdiv (fin p) (fin q) = fin (p / q).
Proof.
  intro Hq. cbn [fdiv fin].
  destruct (Qeq_bool_spec (Qred q) 0) as [H | _].
  - rewrite Qred_correct in H. contradiction.
  - apply fin_eq. now rewrite !Qred_correct.
Qed.

Lemma square_fin p : square (fin p) = fin (p * p).
Proof. apply fmul_fin. Qed.

(** *** Sums of rationals over index lists *)


Lemma qsum_app f l l' : (qsum f (l ++ l') == qsum f l + qsum f l')%Q.
Proof.
  induction l as [|i l IH]; cbn [qsum app]; [ring | rewrite IH; ring].
Qed.

Lemma qsum_ext f g l :
  (forall i, In i l -> (f i == g i)%Q) -> (qsum f l == qsum g l)%Q.
Proof.
  induction l as [|i l IH]; intro H; cbn [qsum]; [reflexivity|].
  rewrite (H i) by now left. rewrite IH; [reflexivity|].
  intros j Hj. apply H. now right.
Qed.

Lemma qsum_scale c f l : (qsum (fun i => c * f i) l == c * qsum f l)%Q.
Proof.
  induction l as [|i l IH]; cbn [qsum]; [ring | rewrite IH; ring].
Qed.

Lemma qsum_const c l :
  (qsum (fun _ => c) l == inject_Z (Z.of_nat (length l)) * c)%Q.
Proof.
  induction l as [|i l IH]; [cbn; ring|].
  cbn [qsum length]. rewrite IH, Nat2Z.inj_succ. unfold Z.succ.
  rewrite inject_Z_plus. ring.
Qed.


Lemma idx_succ n : (idx (S n) == idx n + 1)%Q.
Proof. unfold idx. rewrite Nat2Z.inj_succ. unfold Z.succ. now rewrite inject_Z_plus. Qed.

(** [0 + 1 + ... + (n - 1)] *)
Lemma qsum_idx n : (qsum idx (seq 0 n) == idx n * (idx n - 1) / 2)%Q.
Proof.
  induction n as [|n IH]; [reflexivity|].
  rewrite seq_S, qsum_app, IH. cbn [qsum Nat.add]. rewrite idx_succ. field.
Qed.

(** The sum of the squared distances to [a]. *)
Lemma qsum_sq a n :
  (qsum (fun i => (idx i - a) * (idx i - a)) (seq 0 n) ==
   idx n * a * a - a * idx n * (idx n - 1)
   + (idx n - 1) * idx n * (2 * idx n - 1) / 6)%Q.
Proof.
  induction n as [|n IH]; [cbn [seq qsum]; change (idx 0) with 0%Q; field|].
  rewrite seq_S, qsum_app, IH. cbn [qsum Nat.add]. rewrite idx_succ. field.
Qed.

Lemma qsum_centred n :
  (qsum (fun i => (idx i - (idx n - 1) / 2) * (idx i - (idx n - 1) / 2)) (seq 0 n) ==
   idx n * (idx n * idx n - 1) / 12)%Q.
Proof. rewrite qsum_sq. field. Qed.

(** *** Sums of floats *)

Lemma fold_fadd_fins f l a :
  fold_left fadd (map (fun i => fin (f i)) l) (fin a) = fin (a + qsum f l).
Proof.
  revert a. induction l as [|i l IH]; intro a; cbn [map fold_left qsum].
  - apply fin_eq. ring.
  - rewrite fadd_fin, IH. apply fin_eq. ring.
Qed.

Lemma fold_fadd_rows (T : nat -> nat -> Q) li lj a :
  fold_left fadd
    (concat (map (fun j => map (fun i => fin (T i j)) li) lj)) (fin a)
  = fin (a + qsum (fun j => qsum (fun i => T i j) li) lj).
Proof.
  revert a. induction lj as [|j lj IH]; intro a; cbn [map concat qsum].
  - cbn [fold_left]. apply fin_eq. ring.
  - rewrite fold_left_app, fold_fadd_fins, IH. apply fin_eq. ring.
Qed.

(** *** The grid of a uniform frame *)


Lemma scaled_arange n :
  map (fmul (Fin 1)) (np_arange n) = map coord (seq 0 n).
Proof.
  unfold np_arange. rewrite map_map. apply map_ext. intro i.
  rewrite of_Z_fin, fmul_Fin_fin. apply fin_eq. unfold idx. ring.
Qed.

Lemma gradient_from_coords k m :
  gradient_from (coord k) (map coord (seq (S k) m)) = repeat (fin 1) m.
Proof.
  revert k. induction m as [|m IH]; intro k; [reflexivity|].
  destruct m as [|m].
  - cbn [seq map gradient_from repeat]. unfold coord. rewrite fsub_fin.
    f_equal. apply fin_eq. rewrite idx_succ. ring.
  - specialize (IH (S k)).
    change (seq (S k) (S (S m))) with (S k :: S (S k) :: seq (S (S (S k))) m).
    change (seq (S (S k)) (S m)) with (S (S k) :: seq (S (S (S k))) m) in IH.
    cbn [map gradient_from] in *. rewrite IH. cbn [repeat]. f_equal.
    unfold coord. rewrite fsub_fin. change (Fin 2) with (fin 2).
    rewrite fdiv_fin by discriminate. apply fin_eq. rewrite !idx_succ. field.
Qed.

Lemma gradient_of_coords n :
  (2 <= n)%nat -> np_gradient (map coord (seq 0 n)) = Ok (repeat (fin 1) n).
Proof.
  intro Hn. destruct n as [|[|n]]; try lia.
  change (seq 0 (S (S n))) with (0%nat :: seq 1 (S n)).
  pose proof (gradient_from_coords 0 (S n)) as H.
  change (seq 1 (S n)) with (1%nat :: seq 2 n) in *.
  cbn [map np_gradient] in *. rewrite H. cbn [repeat].
  assert (fsub (coord 1) (coord 0) = fin 1) as ->
    by (unfold coord; rewrite fsub_fin; apply fin_eq; reflexivity).
  reflexivity.
Qed.

Lemma combine_repeat_seq {A B C : Type} (r : A) (Y : nat -> B) (g : C) k n :
  combine (repeat r n) (combine (map Y (seq k n)) (repeat g n))
  = map (fun j => (r, (Y j, g))) (seq k n).
Proof.
  revert k. induction n as [|n IH]; intro k; [reflexivity|].
  cbn [repeat seq map combine]. now rewrite IH.
Qed.

(** The sum over a uniform frame, when each term is a known finite value. *)
Lemma grid_sum_uniform n0 n1 v (term : fl -> fl -> fl -> fl) (T : nat -> nat -> Q) :
  (forall i j,
     fmul (fmul (term v (coord i) (coord j)) (fin 1)) (fin 1) = fin (T i j)) ->
  grid_sum (uniform_frame n0 n1 v)
    (map coord (seq 0 n1)) (repeat (fin 1) n1)
    (map coord (seq 0 n0)) (repeat (fin 1) n0) term
  = fin (qsum (fun j => qsum (fun i => T i j) (seq 0 n1)) (seq 0 n0)).
Proof.
  intro Hterm. unfold grid_sum, np_sum, uniform_frame. cbn [cells].
  rewrite combine_repeat_seq, map_map.
  rewrite (map_ext _ (fun j => map (fun i => fin (T i j)) (seq 0 n1))).
  - change (Fin 0) with (fin 0). rewrite fold_fadd_rows. apply fin_eq. ring.
  - intro j. rewrite combine_repeat_seq, map_map. apply map_ext. intro i.
    apply Hterm.
Qed.

Lemma idx_ge_2 n : (2 <= n)%nat -> (2 <= idx n)%Q.
Proof.
  intro H. unfold idx. change 2%Q with (inject_Z 2). rewrite <- Zle_Qle. lia.
Qed.

Local Open Scope Q_scope.

(** The moments of a uniform frame: the centre of the frame, and the
    variance [(n^2 - 1) / 12] of [n] equally weighted pixels. *)
Lemma uniform_frame_moments n0 n1 q :
  (2 <= n0)%nat -> (2 <= n1)%nat -> ~ (q == 0)%Q ->
  exists sig2xy,
    calculate_2D_moments (uniform_frame n0 n1 (Fin q)) default_scale true
    = Ok [fin ((idx n1 - 1) / 2); fin ((idx n0 - 1) / 2);
          fin ((idx n1 * idx n1 - 1) / 12); fin ((idx n0 * idx n0 - 1) / 12);
          sig2xy].
Proof.
  intros H0 H1 Hq.
  pose proof (idx_ge_2 n0 H0) as Hn0. pose proof (idx_ge_2 n1 H1) as Hn1.
  unfold calculate_2D_moments, default_scale.
  cbn [fst snd shape0 shape1 uniform_frame].
  rewrite !scaled_arange, !gradient_of_coords by assumption. cbn [bind].
  fold (uniform_frame n0 n1 (Fin q)).
  set (data := uniform_frame n0 n1 (Fin q)).
  set (x := map coord (seq 0 n1)). set (gx := repeat (fin 1) n1).
  set (y := map coord (seq 0 n0)). set (gy := repeat (fin 1) n0).
  set (A := (idx n0 * idx n1 * q)%Q).
  assert (HAne : ~ (A == 0)%Q).
  { unfold A. intro H. apply Hq.
    assert (Hpos : (0 < idx n0 * idx n1)%Q) by nra.
    destruct (Qlt_le_dec q 0); [|destruct (Qlt_le_dec 0 q)]; nra. }
  assert (HA : grid_sum data x gx y gy (fun d _ _ => d) = fin A).
  { unfold data, x, gx, y, gy.
    rewrite (grid_sum_uniform _ _ _ _ (fun _ _ => q)).
    - apply fin_eq. rewrite (qsum_ext _ (fun _ => idx n1 * q)).
      + rewrite qsum_const, length_seq. unfold A, idx. ring.
      + intros j _. rewrite qsum_const, length_seq. reflexivity.
    - intros i j. rewrite fmul_Fin_fin, fmul_fin. apply fin_eq. ring. }
  rewrite !HA.
  assert (Hx : fdiv (grid_sum data x gx y gy (fun d xi _ => fmul d xi)) (fin A)
               = fin ((idx n1 - 1) / 2)).
  { unfold data, x, gx, y, gy.
    rewrite (grid_sum_uniform _ _ _ _ (fun i _ => q * idx i)).
    - rewrite fdiv_fin by assumption. apply fin_eq.
      rewrite (qsum_ext _ (fun _ => q * (idx n1 * (idx n1 - 1) / 2))).
      + rewrite qsum_const, length_seq. fold (idx n0). unfold A. field.
        repeat split; lra.
      + intros j _. rewrite qsum_scale, qsum_idx. reflexivity.
    - intros i j. unfold coord. rewrite fmul_Fin_fin, !fmul_fin. apply fin_eq. ring. }
  assert (Hy : fdiv (grid_sum data x gx y gy (fun d _ yj => fmul d yj)) (fin A)
               = fin ((idx n0 - 1) / 2)).
  { unfold data, x, gx, y, gy.
    rewrite (grid_sum_uniform _ _ _ _ (fun _ j => q * idx j)).
    - rewrite fdiv_fin by assumption. apply fin_eq.
      rewrite (qsum_ext _ (fun j => idx n1 * q * idx j)).
      + rewrite qsum_scale, qsum_idx. unfold A. field. repeat split; lra.
      + intros j _. rewrite qsum_const, length_seq. fold (idx n1). ring.
    - intros i j. unfold coord. rewrite fmul_Fin_fin, !fmul_fin. apply fin_eq. ring. }
  rewrite !Hx, !Hy.
  assert (Hxx : fdiv (grid_sum data x gx y gy
                        (fun d xi _ => fmul d (square (fsub xi (fin ((idx n1 - 1) / 2))))))
                     (fin A)
                = fin ((idx n1 * idx n1 - 1) / 12)).
  { unfold data, x, gx, y, gy.
    rewrite (grid_sum_uniform _ _ _ _
               (fun i _ => q * ((idx i - (idx n1 - 1) / 2) * (idx i - (idx n1 - 1) / 2)))).
    - rewrite fdiv_fin by assumption. apply fin_eq.
      rewrite (qsum_ext _ (fun _ => q * (idx n1 * (idx n1 * idx n1 - 1) / 12))).
      + rewrite qsum_const, length_seq. fold (idx n0). unfold A. field.
        repeat split; lra.
      + intros j _. rewrite qsum_scale, qsum_centred. reflexivity.
    - intros i j. unfold coord.
      rewrite fsub_fin, square_fin, fmul_Fin_fin, !fmul_fin. apply fin_eq. ring. }
  assert (Hyy : fdiv (grid_sum data x gx y gy
                        (fun d _ yj => fmul d (square (fsub yj (fin ((idx n0 - 1) / 2))))))
                     (fin A)
                = fin ((idx n0 * idx n0 - 1) / 12)).
  { unfold data, x, gx, y, gy.
    rewrite (grid_sum_uniform _ _ _ _
               (fun _ j => q * ((idx j - (idx n0 - 1) / 2) * (idx j - (idx n0 - 1) / 2)))).
    - rewrite fdiv_fin by assumption. apply fin_eq.
      rewrite (qsum_ext _
                 (fun j => idx n1 * q *
                           ((idx j - (idx n0 - 1) / 2) * (idx j - (idx n0 - 1) / 2)))).
      + rewrite qsum_scale, qsum_centred. unfold A. field. repeat split; lra.
      + intros j _. rewrite qsum_const, length_seq. fold (idx n1). ring.
    - intros i j. unfold coord.
      rewrite fsub_fin, square_fin, fmul_Fin_fin, !fmul_fin. apply fin_eq. ring. }
  rewrite Hxx, Hyy. eexists. reflexivity.
Qed.

Local Close Scope Q_scope.

(** *** Windows that cover the frame *)

(** A request that starts at or before 0 and ends at or after [n] selects
    the whole axis. *)
Lemma axis_covering n c e :
  2 <= n -> (c - e / 2 <= 0)%Q -> (inject_Z n <= c + e / 2)%Q ->
  exists e', axis_start n (Fin c) (Fin e) = Ok (0, Fin e') /\
             axis_extent n 0 (Fin e') = Ok n.
Proof.
  intros Hn Hlo Hhi.
  assert (HN : (inject_Z (n - 2) == inject_Z n - 2)%Q) by apply inject_Z_sub.
  assert (HN2 : (2 <= inject_Z n)%Q)
    by (change (inject_Z 2 <= inject_Z n)%Q; rewrite <- Zle_Qle; exact Hn).
  pose proof (half_twice e) as Hhalf.
  destruct (axis_start_fin n c e) as (s0 & Hs0 & ->).
  destruct (Qltb_spec (inject_Z (n - 2)) s0) as [H | _]; [lra|].
  destruct (Qle_bool_spec s0 0) as [_ | H]; [|lra].
  exists (Qred (e + s0)). split; [reflexivity|].
  unfold axis_extent, fgt, of_Z. cbn [fadd fin flt isnan py_int].
  destruct (Qltb_spec (inject_Z n) (Qred (inject_Z 0 + Qred (e + s0)))) as [_ | Hle].
  - now rewrite Z.sub_0_r.
  - apply Qnot_lt_le in Hle. rewrite !Qred_correct in Hle.
    f_equal. apply trunc_eq; [|lia]. rewrite Qred_correct.
    change (inject_Z 0) with 0%Q in Hle. lra.
Qed.

Lemma py_slice_all {A : Type} (l : list A) :
  py_slice l 0 (0 + Z.of_nat (length l)) = l.
Proof.
  unfold py_slice. rewrite slice_len_inside by lia.
  rewrite Nat2Z.id. unfold slice_bound. cbn [Z.ltb Z.compare].
  rewrite Z.min_l by lia. cbn [Z.to_nat skipn]. apply firstn_all.
Qed.

Lemma slice2_all n0 n1 v :
  slice2 (uniform_frame n0 n1 v) 0 (0 + Z.of_nat n0) 0 (0 + Z.of_nat n1)
  = uniform_frame n0 n1 v.
Proof.
  unfold slice2, uniform_frame. cbn [shape0 shape1 cells].
  rewrite !slice_len_inside, !Nat2Z.id by lia. f_equal.
  pose proof (py_slice_all (repeat (repeat v n1) n0)) as H.
  rewrite repeat_length in H. rewrite H, map_repeat. f_equal.
  pose proof (py_slice_all (repeat v n1)) as H'.
  now rewrite repeat_length in H'.
Qed.

Lemma get_roi_covering n0 n1 v cx ex cy ey :
  (2 <= n0)%nat -> (2 <= n1)%nat ->
  (cx - ex / 2 <= 0)%Q -> (idx n1 <= cx + ex / 2)%Q ->
  (cy - ey / 2 <= 0)%Q -> (idx n0 <= cy + ey / 2)%Q ->
  get_roi (uniform_frame n0 n1 v)
    {| roi_x0 := Fin cx; roi_width := Fin ex; roi_y0 := Fin cy; roi_height := Fin ey |}
  = Ok (uniform_frame n0 n1 v).
Proof.
  intros H0 H1 Hxlo Hxhi Hylo Hyhi. unfold get_roi.
  rewrite get_roi_window_axes.
  cbn [shape0 shape1 uniform_frame roi_x0 roi_width roi_y0 roi_height].
  destruct (axis_covering (Z.of_nat n1) cx ex) as (ex' & -> & Hex); [lia | assumption | assumption |].
  destruct (axis_covering (Z.of_nat n0) cy ey) as (ey' & -> & Hey); [lia | assumption | assumption |].
  cbn [bind]. rewrite Hex. cbn [bind]. rewrite Hey.
  cbn [bind w_bottom w_height w_left w_width].
  fold (uniform_frame n0 n1 v). now rewrite slice2_all.
Qed.

(** *** The loop on a uniform frame *)


Lemma rel_change_zero d :
  ~ (d == 0)%Q -> fdiv (fabs (fsub (Fin d) (Fin d))) (Fin d) = Fin 0.
Proof.
  intro Hd. unfold fsub. cbn [fneg fadd]. unfold fin.
  assert (Qred (d + - d) = 0%Q) as ->
    by (transitivity (Qred 0); [apply Qred_complete; ring | reflexivity]).
  cbn [fabs]. change (Qabs 0) with 0%Q. cbn [fdiv].
  destruct (Qeq_bool_spec d 0) as [H | _]; [contradiction|].
  unfold fin. apply (f_equal Fin).
  transitivity (Qred 0); [apply Qred_complete; field; exact Hd | reflexivity].
Qed.

Section UniformLoop.

Context {M : Libm}.
Variables (n0 n1 : nat) (q : Q).
Hypothesis Hn0 : (2 <= n0)%nat.
Hypothesis Hn1 : (2 <= n1)%nat.
Hypothesis Hq : ~ (q == 0)%Q.
Hypothesis Hsqrt : sqrt_within_factor_2 M.

Local Abbreviation data := (uniform_frame n0 n1 (Fin q)).

Lemma sd_lower_bound n : (2 <= n)%nat -> ((idx n + 1) / 12 <= sd n)%Q.
Proof.
  intro Hn. pose proof (idx_ge_2 n Hn) as HN.
  destruct (Hsqrt (Qred ((idx n * idx n - 1) / 12))) as [Hpos Hsq].
  { rewrite Qred_correct. apply Qle_shift_div_l; [reflexivity | nra]. }
  fold (sd n) in Hpos, Hsq. rewrite Qred_correct in Hsq.
  assert (Hv : ((idx n * idx n - 1) / 12 * 12 == idx n * idx n - 1)%Q) by field.
  set (v := ((idx n * idx n - 1) / 12)%Q) in *.
  assert (Hb : ((idx n + 1) / 12 * 12 == idx n + 1)%Q) by field.
  set (b := ((idx n + 1) / 12)%Q) in *.
  destruct (Qlt_le_dec (sd n) b) as [Hlt | Hge]; [|exact Hge].
  exfalso. assert (Hb0 : (0 <= b)%Q) by lra.
  assert (Hsq' : (sd n * sd n <= b * b)%Q) by nra.
  nra.
Qed.

Lemma dx_value n :
  (2 <= n)%nat ->
  fmul (Fin 4) (np_sqrt (fin ((idx n * idx n - 1) / 12))) = Fin (d4 n).
Proof.
  intro Hn. pose proof (idx_ge_2 n Hn) as HN. unfold np_sqrt, fin.
  destruct (Qltb_spec (Qred ((idx n * idx n - 1) / 12)) 0) as [H | _].
  - rewrite Qred_correct in H. exfalso.
    assert ((0 <= (idx n * idx n - 1) / 12)%Q)
      by (apply Qle_shift_div_l; [reflexivity | nra]). lra.
  - reflexivity.
Qed.

Lemma d4_spec n : (2 <= n)%nat -> ((idx n + 1) / 3 <= d4 n)%Q.
Proof.
  intro Hn. pose proof (sd_lower_bound n Hn) as H. unfold d4.
  rewrite Qred_correct.
  assert (Hb : ((idx n + 1) / 12 * 4 == (idx n + 1) / 3)%Q) by field.
  set (b := ((idx n + 1) / 12)%Q) in *. set (c := ((idx n + 1) / 3)%Q) in *. lra.
Qed.

Variable sig2xy : fl.
Hypothesis Hmoments :
  calculate_2D_moments data default_scale true
  = Ok [fin ((idx n1 - 1) / 2); fin ((idx n0 - 1) / 2);
        fin ((idx n1 * idx n1 - 1) / 12); fin ((idx n0 * idx n0 - 1) / 12);
        sig2xy].

(** A pass whose window covers the frame. *)
Lemma pass_on_covering st cx ex cy ey :
  roi_new st
  = {| roi_x0 := Fin cx; roi_width := Fin ex; roi_y0 := Fin cy; roi_height := Fin ey |} ->
  (cx - ex / 2 <= 0)%Q -> (idx n1 <= cx + ex / 2)%Q ->
  (cy - ey / 2 <= 0)%Q -> (idx n0 <= cy + ey / 2)%Q ->
  (S (itN st) < it_limit)%nat ->
  exists st',
    loop_body data st = Ok (Continue st') /\
    itN st' = S (itN st) /\ printed st' = printed st /\
    errx st' = fdiv (fabs (fsub (Fin (d4 n1)) (d0x st))) (d0x st) /\
    erry st' = fdiv (fabs (fsub (Fin (d4 n0)) (d0y st))) (d0y st) /\
    d0x st' = Fin (d4 n1) /\ d0y st' = Fin (d4 n0) /\
    exists cx' cy',
      roi_new st'
      = {| roi_x0 := Fin cx'; roi_width := Fin (Qred (3 * d4 n1));
           roi_y0 := Fin cy'; roi_height := Fin (Qred (3 * d4 n0)) |} /\
      (cx' == (idx n1 - 1) / 2 + cx - ex / 2)%Q /\
      (cy' == (idx n0 - 1) / 2 + cy - ey / 2)%Q.
Proof.
  intros Hroi Hxlo Hxhi Hylo Hyhi Hit. unfold loop_body.
  rewrite Hroi. rewrite get_roi_covering by assumption.
  cbn [bind]. rewrite Hmoments. cbn [bind item nth].
  rewrite !dx_value by assumption.
  cbn [roi_x0 roi_width roi_y0 roi_height]. cbv zeta.
  destruct (it_limit <=? S (itN st))%nat eqn:E; [apply Nat.leb_le in E; lia|].
  eexists. split; [reflexivity|].
  cbn [itN printed errx erry d0x d0y roi_new].
  repeat split.
  cbn [fadd fsub fneg fdiv fmul fin]. change (Qeq_bool 2 0) with false.
  cbn [fadd fsub fneg fdiv fmul fin].
  do 2 eexists. split; [reflexivity|].
  split; rewrite !Qred_correct; reflexivity.
Qed.

Lemma initial_roi_covers :
  exists cx cy,
    roi_new (initial_state data)
    = {| roi_x0 := Fin cx; roi_width := Fin (idx n1);
         roi_y0 := Fin cy; roi_height := Fin (idx n0) |} /\
    (cx == idx n1 / 2)%Q /\ (cy == idx n0 / 2)%Q.
Proof.
  unfold initial_state, of_Z. cbn [shape0 shape1 uniform_frame roi_new].
  cbn [fdiv fin]. change (Qeq_bool 2 0) with false. cbn [fdiv fin].
  do 2 eexists. split; [reflexivity|].
  split; rewrite Qred_correct; reflexivity.
Qed.

Lemma py_while_S {S : Type} fuel (cond : S -> bool) body (s : S) :
  py_while (Datatypes.S fuel) cond body s =
  if cond s then
    match body s with
    | Raise e => Some (Raise e)
    | Ok (Break s') => Some (Ok s')
    | Ok (Continue s') => py_while fuel cond body s'
    end
  else Some (Ok s).
Proof. reflexivity. Qed.

Lemma uniform_loop_converges :
  exists st,
    refine_roi it_limit data = Some (Ok st) /\
    (1 <= itN st <= 2)%nat /\ loop_cond st = false /\ printed st = [].
Proof.
  pose proof (idx_ge_2 n0 Hn0) as HN0. pose proof (idx_ge_2 n1 Hn1) as HN1.
  pose proof (d4_spec n0 Hn0) as Hd0. pose proof (d4_spec n1 Hn1) as Hd1.
  pose proof (half_twice (idx n0)) as Hh0. pose proof (half_twice (idx n1)) as Hh1.
  destruct initial_roi_covers as (cx & cy & Hroi0 & Hcx & Hcy).
  destruct (pass_on_covering (initial_state data) cx (idx n1) cy (idx n0))
    as (st1 & Hbody1 & Hit1 & Hpr1 & Hex1 & Hey1 & Hdx1 & Hdy1 &
        cx1 & cy1 & Hroi1 & Hcx1 & Hcy1);
    [exact Hroi0 | lra | lra | lra | lra | cbn; unfold it_limit; lia |].
  unfold refine_roi. change it_limit with 5%nat.
  rewrite py_while_S, initial_state_runs, Hbody1, py_while_S.
  cbn [itN initial_state printed] in Hit1, Hpr1.
  destruct (loop_cond st1) eqn:Hcond1.
  2:{ exists st1. repeat split; try assumption; lia. }
  assert (Hthird0 : ((idx n0 + 1) / 3 * 3 == idx n0 + 1)%Q) by field.
  assert (Hthird1 : ((idx n1 + 1) / 3 * 3 == idx n1 + 1)%Q) by field.
  assert (Hm0 : ((idx n0 - 1) / 2 * 2 == idx n0 - 1)%Q) by field.
  assert (Hm1 : ((idx n1 - 1) / 2 * 2 == idx n1 - 1)%Q) by field.
  pose proof (half_twice (Qred (3 * d4 n0))) as Hw0.
  pose proof (half_twice (Qred (3 * d4 n1))) as Hw1.
  pose proof (Qred_correct (3 * d4 n0)) as Hr0.
  pose proof (Qred_correct (3 * d4 n1)) as Hr1.
  destruct (pass_on_covering st1 cx1 (Qred (3 * d4 n1)) cy1 (Qred (3 * d4 n0)))
    as (st2 & Hbody2 & Hit2 & Hpr2 & Hex2 & Hey2 & _);
    [exact Hroi1 | | | | | rewrite Hit1; unfold it_limit; lia |].
  1-4: set (t0 := ((idx n0 + 1) / 3)%Q) in *; set (t1 := ((idx n1 + 1) / 3)%Q) in *;
       set (m0 := ((idx n0 - 1) / 2)%Q) in *; set (m1 := ((idx n1 - 1) / 2)%Q) in *;
       set (h0 := (idx n0 / 2)%Q) in *; set (h1 := (idx n1 / 2)%Q) in *;
       set (w0 := (Qred (3 * d4 n0) / 2)%Q) in *;
       set (w1 := (Qred (3 * d4 n1) / 2)%Q) in *; lra.
  rewrite Hbody2, py_while_S.
  rewrite Hdx1, rel_change_zero in Hex2.
  2:{ intro H. rewrite H in Hd1. set (t1 := ((idx n1 + 1) / 3)%Q) in *. lra. }
  rewrite Hdy1, rel_change_zero in Hey2.
  2:{ intro H. rewrite H in Hd0. set (t0 := ((idx n0 + 1) / 3)%Q) in *. lra. }
  assert (Hcond2 : loop_cond st2 = false)
    by (unfold loop_cond; rewrite Hex2, Hey2; reflexivity).
  rewrite Hcond2. exists st2. repeat split; try assumption; try lia; congruence.
Qed.

End UniformLoop.

(** Uniform frames converge on the second pass at the latest. *)
Lemma uniform_frame_refinement {M : Libm} (n0 n1 : nat) (q : Q) :
  (2 <= n0)%nat -> (2 <= n1)%nat -> ~ (q == 0)%Q -> sqrt_within_factor_2 M ->
  exists st,
    refine_roi it_limit (uniform_frame n0 n1 (Fin q)) = Some (Ok st) /\
    (1 <= itN st <= 2)%nat /\ loop_cond st = false /\ printed st = [].
Proof.
  intros H0 H1 Hq Hsqrt.
  destruct (uniform_frame_moments n0 n1 q H0 H1 Hq) as [sig2xy Hm].
  exact (uniform_loop_converges n0 n1 q H0 H1 Hsqrt sig2xy Hm).
Qed.

Lemma sqrt_down_within_factor_2 : sqrt_within_factor_2 eval_libm.
Proof.
  intros [n d] Hx. cbn [libm_sqrt eval_libm]. unfold sqrt_down.
  rewrite Qred_correct. cbn [Qnum Qden].
  assert (Hn : 0 <= n) by (unfold Qle in Hx; cbn in Hx; lia).
  replace (4 ^ 64) with (2 ^ 64 * 2 ^ 64) by reflexivity.
  assert (HK3 : 3 <= 2 ^ 64) by (vm_compute; discriminate).
  unfold Qle, Qmult. cbn [Qnum Qden]. rewrite !Pos2Z.inj_mul.
  change (Z.pos (2 ^ 64)) with (2 ^ 64).
  set (K := 2 ^ 64) in *. set (dd := Z.pos d) in *.
  assert (Hdd : 0 < dd) by (unfold dd; lia).
  set (N := n * dd * (K * K)).
  assert (HN : 0 <= N) by (unfold N; nia).
  pose proof (Z.sqrt_spec N HN) as Hs. cbv zeta in Hs.
  pose proof (Z.sqrt_nonneg N) as Hs0.
  set (s := Z.sqrt N) in *.
  assert (Hmain : N <= 2 * (s * s)).
  { destruct (Z.eq_dec n 0) as [Hn0 | Hn0].
    - unfold N. rewrite Hn0. nia.
    - assert (K * K <= N) by (unfold N; nia).
      assert (K <= s) by nia. nia. }
  split; [lia|]. unfold N in Hmain. nia.
Qed.

(** C4, as amended.  For every frame the loop of [calculate_beamwidths]
    stops within [it_limit] = 5 passes, whatever fuel is left over: it
    raises, or it stops after 1 to 5 passes in a state where no relative
    change exceeds the tolerance or where the counter has reached 5.  On a
    uniform frame of at least 2 rows and 2 columns it does not raise: it
    stops converged after at most 2 passes and prints nothing (given a
    square root whose square is at least half its argument). *)
Theorem refinement_stops {M : Libm} (data : ndarray) (extra : nat) :
  exists r,
    refine_roi it_limit data = Some r /\
    refine_roi (it_limit + extra) data = Some r /\
    calculate_beamwidths (it_limit + extra) data = calculate_beamwidths it_limit data /\
    calculate_beamwidths it_limit data <> None /\
    match r with
    | Ok st =>
        (1 <= itN st <= it_limit)%nat /\
        (loop_cond st = false \/ itN st = it_limit)
    | Raise _ => True
    end /\
    (forall n0 n1 q,
       data = uniform_frame n0 n1 (Fin q) ->
       (2 <= n0)%nat -> (2 <= n1)%nat -> ~ (q == 0)%Q -> sqrt_within_factor_2 M ->
       exists st,
         r = Ok st /\ (1 <= itN st <= 2)%nat /\ loop_cond st = false /\
         printed st = []).
Proof.
  unfold calculate_beamwidths, refine_roi.
  destruct (loop_terminates data it_limit extra (initial_state data))
    as (r & Hr & Hmore);
    [cbn [itN initial_state]; unfold it_limit; lia
    |cbn [itN initial_state]; unfold it_limit; lia |].
  exists r. split; [exact Hr|]. split; [exact Hmore|].
  rewrite Hr, Hmore. split; [reflexivity|]. split.
  { destruct r as [st | e]; [destruct (roi_moments st) as [[? ?]|]|]; discriminate. }
  split.
  - destruct r as [st | e]; [|exact I].
    apply loop_stops_in in Hr;
      [|cbn [itN initial_state]; unfold it_limit; lia|reflexivity].
    destruct Hr as [Hrange [(Hc & _ & ->) | [(Hc & Hl & _ & Hgt & _) | (Hcap & _)]]].
    + rewrite initial_state_runs in Hc. discriminate.
    + cbn [itN initial_state] in *. split; [lia | now left].
    + cbn [itN initial_state] in *. split; [unfold it_limit in *; lia | now right].
  - intros n0 n1 q -> H0 H1 Hq Hsqrt.
    destruct (uniform_frame_refinement n0 n1 q H0 H1 Hq Hsqrt)
      as (st & Hst & Hit & Hcond & Hpr).
    unfold refine_roi in Hst. rewrite Hr in Hst. injection Hst as ->.
    now exists st.
Qed.

(** C4: a 4x4 frame of ones converges within two passes, with the square
    root that the examples are evaluated with. *)
Lemma refinement_stops_witness :
  exists st,
    refine_roi (M := eval_libm) it_limit (uniform_frame 4 4 (Fin 1)) = Some (Ok st) /\
    (1 <= itN st <= 2)%nat /\ loop_cond st = false /\ printed st = [].
Proof.
  destruct (refinement_stops (M := eval_libm) (uniform_frame 4 4 (Fin 1)) 0)
    as (r & Hr & _ & _ & _ & _ & Huniform).
  destruct (Huniform 4%nat 4%nat 1%Q eq_refl) as (st & Hst & Hrest).
  - lia.
  - lia.
  - discriminate.
  - exact sqrt_down_within_factor_2.
  - exists st. rewrite Hr, Hst. split; [reflexivity | exact Hrest].
Defined.

Lemma no_bool_among_floats l : existsb holds_bool (map PyFloat l) = false.
Proof. induction l as [|x l IH]; [reflexivity | exact IH]. Qed.

Lemma returned_tuple_has_no_bool s : holds_bool (returned_tuple s) = false.
Proof.
  unfold returned_tuple. cbn [holds_bool existsb].
  now rewrite !no_bool_among_floats.
Qed.

(** C5, as amended.  When the loop stops at the cap,
    [calculate_beamwidths] prints its message and returns the tuple
    [(beamwidths, roi, moments)] of the last pass: three sequences of
    floats, none of which is a flag. *)
Theorem capped_sample_has_no_flag {M : Libm} (data : ndarray) (extra : nat)
    (st : loop_state) :
  refine_roi (it_limit + extra) data = Some (Ok st) ->
  itN st = it_limit ->
  exists r m,
    roi_moments st = Some (r, m) /\
    calculate_beamwidths (it_limit + extra) data
      = Some (Ok (ellipse r m), [exceeded_message]) /\
    returned_tuple (ellipse r m)
      = PySeq [PySeq (map PyFloat (beamwidths (ellipse r m)));
               PySeq (map PyFloat (roi_items r));
               PySeq (map PyFloat (moments (ellipse r m)))] /\
    holds_bool (returned_tuple (ellipse r m)) = false.
Proof.
  intros Hrun Hcap. unfold calculate_beamwidths. rewrite Hrun.
  unfold refine_roi in Hrun.
  apply loop_stops_in in Hrun;
    [|cbn [itN initial_state]; unfold it_limit; lia|reflexivity].
  destruct Hrun as [_ [(_ & _ & ->) | [(_ & Hl & _) | (_ & Hpr & [[roi0 moments0] Hrm])]]].
  - discriminate Hcap.
  - lia.
  - exists roi0, moments0. rewrite Hrm, Hpr.
    repeat split. apply returned_tuple_has_no_bool.
Qed.


(** C5: the amended statement on [heavy_tail_frame]. *)
Lemma capped_sample_has_no_flag_witness :
  exists r m,
    roi_moments heavy_tail_stop = Some (r, m) /\
    calculate_beamwidths (M := eval_libm) (it_limit + 0) heavy_tail_frame
      = Some (Ok (ellipse (M := eval_libm) r m), [exceeded_message]) /\
    returned_tuple (ellipse (M := eval_libm) r m)
      = PySeq [PySeq (map PyFloat (beamwidths (ellipse (M := eval_libm) r m)));
               PySeq (map PyFloat (roi_items r));
               PySeq (map PyFloat (moments (ellipse (M := eval_libm) r m)))] /\
    holds_bool (returned_tuple (ellipse (M := eval_libm) r m)) = false.
Proof.
  apply (capped_sample_has_no_flag (M := eval_libm) heavy_tail_frame 0 heavy_tail_stop).
  - vm_compute. reflexivity.
  - vm_compute. reflexivity.
Defined.

(** C4 as stated fails: on a frame with one bright pixel the second pass
    asks for a window of width 0, and [np.gradient] raises on the empty
    array. *)
Lemma single_pixel_frame_raises :
  refine_roi (M := eval_libm) it_limit pixel4 = Some (Raise ValueError) /\
  calculate_beamwidths (M := eval_libm) it_limit pixel4 = Some (Raise ValueError, []).
Proof. split; vm_compute; reflexivity. Qed.

(** C5 as stated fails: [heavy_tail_frame] reaches the cap with a
    relative change above the tolerance, and the returned tuple holds no
    flag; the printed line is the only trace. *)
Lemma capped_run_returns_no_flag :
  exists st s,
    refine_roi (M := eval_libm) it_limit heavy_tail_frame = Some (Ok st) /\
    itN st = it_limit /\ loop_cond st = true /\
    calculate_beamwidths (M := eval_libm) it_limit heavy_tail_frame
      = Some (Ok s, [exceeded_message]) /\
    holds_bool (returned_tuple s) = false.
Proof.
  exists heavy_tail_stop.
  exists (match roi_moments heavy_tail_stop with
          | Some (r, m) => ellipse (M := eval_libm) r m
          | None => ellipse (M := eval_libm) (roi_of 0 0 0 0) []
          end).
  repeat split; vm_compute; reflexivity.
Qed.

(** ** [fit_M2] *)

Lemma fold_min2_fin l a :
  Forall finite l ->
  exists m, fold_left min2 l (Fin a) = Fin m /\ (m <= a)%Q /\
            (forall d, In (Fin d) l -> (m <= d)%Q) /\
            (Fin m = Fin a \/ In (Fin m) l).
Proof.
  intro Hl. revert a. induction Hl as [|x l Hx _ IH]; intro a.
  - exists a. repeat split; [apply Qle_refl | intros d [] | now left].
  - destruct (finite_is_fin x Hx) as [b ->]. cbn [fold_left].
    unfold min2 at 2. cbn [isnan flt].
    destruct (Qltb_spec b a) as [Hlt | Hge].
    + destruct (IH b) as (m & -> & Hmb & Hall & Hin). exists m.
      repeat split.
      * lra.
      * intros d [Hd | Hd]; [injection Hd as <-; exact Hmb | now apply Hall].
      * right. destruct Hin as [-> | Hin]; [now left | now right].
    + apply Qnot_lt_le in Hge.
      destruct (IH a) as (m & -> & Hma & Hall & Hin). exists m.
      repeat split.
      * exact Hma.
      * intros d [Hd | Hd]; [injection Hd as <-; lra | now apply Hall].
      * destruct Hin as [Hin | Hin]; [now left | right; now right].
Qed.

Lemma fold_max2_fin l a :
  Forall finite l ->
  exists m, fold_left max2 l (Fin a) = Fin m /\ (a <= m)%Q /\
            (forall d, In (Fin d) l -> (d <= m)%Q) /\
            (Fin m = Fin a \/ In (Fin m) l).
Proof.
  intro Hl. revert a. induction Hl as [|x l Hx _ IH]; intro a.
  - exists a. repeat split; [apply Qle_refl | intros d [] | now left].
  - destruct (finite_is_fin x Hx) as [b ->]. cbn [fold_left].
    unfold max2 at 2. cbn [isnan flt].
    destruct (Qltb_spec a b) as [Hlt | Hge].
    + destruct (IH b) as (m & -> & Hmb & Hall & Hin). exists m.
      repeat split.
      * lra.
      * intros d [Hd | Hd]; [injection Hd as <-; exact Hmb | now apply Hall].
      * right. destruct Hin as [-> | Hin]; [now left | now right].
    + apply Qnot_lt_le in Hge.
      destruct (IH a) as (m & -> & Hma & Hall & Hin). exists m.
      repeat split.
      * exact Hma.
      * intros d [Hd | Hd]; [injection Hd as <-; lra | now apply Hall].
      * destruct Hin as [Hin | Hin]; [now left | right; now right].
Qed.

Lemma first_index_finds l m :
  Forall finite l -> In (Fin m) l ->
  exists m', nth_error l (first_index (Fin m) l) = Some (Fin m') /\ (m' == m)%Q.
Proof.
  induction 1 as [|x l Hx _ IH]; intros Hin; [destruct Hin|].
  destruct (finite_is_fin x Hx) as [b ->]. cbn [first_index feq isnan andb orb].
  rewrite orb_false_r.
  destruct (Qeq_bool_spec b m) as [Heq | Hne].
  - exists b. now split.
  - destruct Hin as [Hin | Hin].
    + injection Hin as ->. exfalso. apply Hne. reflexivity.
    + exact (IH Hin).
Qed.

Lemma getitem_finite z i :
  Forall finite z -> (i < length z)%nat -> exists q, getitem z i = Ok (Fin q) /\
                                                      nth_error z i = Some (Fin q).
Proof.
  intros Hz Hi. unfold getitem.
  destruct (nth_error z i) as [x|] eqn:E; [|apply nth_error_None in E; lia].
  rewrite Forall_forall in Hz.
  destruct (finite_is_fin x (Hz x (nth_error_In _ _ E))) as [q ->]. now exists q.
Qed.

(** C6.  For a non-empty sequence of finite diameters, the initial guess
    of [fit_M2] is computed from the sample [(zi, di)] of least diameter
    and the sample [(zm, dm)] of greatest diameter by the formulas of the
    specification, and this guess is what the optimizer receives. *)
Theorem initial_guess_from_extremes {M : Libm}
    (curve_fit : list fl -> list fl -> list fl -> result (Q * Q * Q))
    (dz z : list fl) (wl : Q) :
  dz <> [] -> length z = length dz -> Forall finite dz -> Forall finite z ->
  exists imin imax di di' zi dm dm' zm,
    nth_error dz imin = Some (Fin di') /\ (di' == di)%Q /\
    nth_error z imin = Some (Fin zi) /\
    (forall d, In (Fin d) dz -> (di <= d)%Q) /\
    nth_error dz imax = Some (Fin dm') /\ (dm' == dm)%Q /\
    nth_error z imax = Some (Fin zm) /\
    (forall d, In (Fin d) dz -> (d <= dm)%Q) /\
    let c0 :=
      square (np_arctan (fdiv (fsub (Fin dm) (Fin di)) (fsub (Fin zm) (Fin zi)))) in
    let b0 := fmul (fmul (Fin (-2)) (Fin zi)) c0 in
    let a0 := fadd (square (Fin di)) (fmul c0 (square (Fin zi))) in
    fit_M2_p0 dz z = Ok [a0; b0; c0] /\
    fit_M2 curve_fit dz z wl =
      ('(a, b, c) <- curve_fit z dz [a0; b0; c0] ;; derived_values wl a b c).
Proof.
  intros Hne Hlen Hdz Hz.
  destruct dz as [|x dz]; [contradiction|].
  inversion Hdz as [|? ? Hx Hdz']; subst.
  destruct (finite_is_fin x Hx) as [a ->].
  destruct (fold_min2_fin dz a Hdz') as (di & Hmin & Hdia & Hdiall & Hdiin).
  destruct (fold_max2_fin dz a Hdz') as (dm & Hmax & Hdma & Hdmall & Hdmin).
  assert (Hinmin : In (Fin di) (Fin a :: dz))
    by (destruct Hdiin as [-> | Hin]; [now left | now right]).
  assert (Hinmax : In (Fin dm) (Fin a :: dz))
    by (destruct Hdmin as [-> | Hin]; [now left | now right]).
  destruct (first_index_finds _ _ Hdz Hinmin) as (di' & Hnmin & Hdi').
  destruct (first_index_finds _ _ Hdz Hinmax) as (dm' & Hnmax & Hdm').
  set (imin := first_index (Fin di) (Fin a :: dz)) in *.
  set (imax := first_index (Fin dm) (Fin a :: dz)) in *.
  assert (Himin : (imin < length z)%nat)
    by (rewrite Hlen; apply nth_error_Some; congruence).
  assert (Himax : (imax < length z)%nat)
    by (rewrite Hlen; apply nth_error_Some; congruence).
  destruct (getitem_finite z imin Hz Himin) as (zi & Hgi & Hzi).
  destruct (getitem_finite z imax Hz Himax) as (zm & Hgm & Hzm).
  exists imin, imax, di, di', zi, dm, dm', zm.
  assert (Hp0 : fit_M2_p0 (Fin a :: dz) z =
                Ok [fadd (square (Fin di))
                      (fmul (square (np_arctan (fdiv (fsub (Fin dm) (Fin di))
                                                     (fsub (Fin zm) (Fin zi)))))
                            (square (Fin zi)));
                    fmul (fmul (Fin (-2)) (Fin zi))
                      (square (np_arctan (fdiv (fsub (Fin dm) (Fin di))
                                               (fsub (Fin zm) (Fin zi)))));
                    square (np_arctan (fdiv (fsub (Fin dm) (Fin di))
                                            (fsub (Fin zm) (Fin zi))))]).
  { unfold fit_M2_p0, np_argmin, np_argmax, np_min, np_max.
    rewrite Hmin, Hmax. cbn [bind]. fold imin imax.
    rewrite Hgi, Hgm. reflexivity. }
  repeat split; try assumption.
  - intros d [Hd | Hd]; [injection Hd as <-; exact Hdia | now apply Hdiall].
  - intros d [Hd | Hd]; [injection Hd as <-; exact Hdma | now apply Hdmall].
  - unfold fit_M2. rewrite Hp0. reflexivity.
Qed.

(** C6 on three samples. *)
Lemma initial_guess_from_extremes_witness :
  exists imin imax di di' zi dm dm' zm,
    nth_error [Fin 3; Fin 1; Fin 2] imin = Some (Fin di') /\ (di' == di)%Q /\
    nth_error [Fin 0; Fin 5; Fin 9] imin = Some (Fin zi) /\
    (forall d, In (Fin d) [Fin 3; Fin 1; Fin 2] -> (di <= d)%Q) /\
    nth_error [Fin 3; Fin 1; Fin 2] imax = Some (Fin dm') /\ (dm' == dm)%Q /\
    nth_error [Fin 0; Fin 5; Fin 9] imax = Some (Fin zm) /\
    (forall d, In (Fin d) [Fin 3; Fin 1; Fin 2] -> (d <= dm)%Q) /\
    let c0 :=
      square (np_arctan (M := eval_libm)
                (fdiv (fsub (Fin dm) (Fin di)) (fsub (Fin zm) (Fin zi)))) in
    let b0 := fmul (fmul (Fin (-2)) (Fin zi)) c0 in
    let a0 := fadd (square (Fin di)) (fmul c0 (square (Fin zi))) in
    fit_M2_p0 (M := eval_libm) [Fin 3; Fin 1; Fin 2] [Fin 0; Fin 5; Fin 9]
      = Ok [a0; b0; c0] /\
    fit_M2 (M := eval_libm) (fun _ _ _ => Raise RuntimeError)
           [Fin 3; Fin 1; Fin 2] [Fin 0; Fin 5; Fin 9] default_wl =
      ('(a, b, c) <- Raise RuntimeError ;; derived_values (M := eval_libm) default_wl a b c).
Proof.
  apply (initial_guess_from_extremes (M := eval_libm)
           (fun _ _ _ => Raise RuntimeError)
           [Fin 3; Fin 1; Fin 2] [Fin 0; Fin 5; Fin 9] default_wl).
  - discriminate.
  - reflexivity.
  - repeat constructor.
  - repeat constructor.
Defined.





(** ** [read_position] *)


Lemma split_without_sep sep s :
  has_char sep s = false -> Str.split sep s = [s].
Proof.
  induction s as [|c s IH]; [reflexivity|]. cbn [has_char Str.split].
  intro H. apply orb_false_iff in H as [Hc Hs].
  rewrite Hc, (IH Hs). reflexivity.
Qed.




(** ** The count check *)

Lemma count_check_passes {A B : Type} (files : list A) (z : list B) :
  count_check files z = Ok tt <->
  length files = length z /\ Z.of_nat (length files) <= 256.
Proof.
  unfold count_check, np_size, new_int, py_is, stop.
  set (nf := Z.of_nat (length files)). set (nz := Z.of_nat (length z)).
  assert (Hf : (-5 <=? nf) = true) by (apply Z.leb_le; lia).
  assert (Hz : (-5 <=? nz) = true) by (apply Z.leb_le; lia).
  rewrite Hf, Hz. cbn [andb].
  destruct (nf <=? 256) eqn:Ef; destruct (nz <=? 256) eqn:Ez;
    cbn [int_id negb];
    try apply Z.leb_le in Ef; try apply Z.leb_gt in Ef;
    try apply Z.leb_le in Ez; try apply Z.leb_gt in Ez.
  - destruct (nf =? nz) eqn:E; cbn [negb].
    + apply Z.eqb_eq in E. split; [split; lia | reflexivity].
    + apply Z.eqb_neq in E. split; [discriminate | intros [H _]; lia].
  - split; [discriminate | intros [H ?]; lia].
  - split; [discriminate | intros [H ?]; lia].
  - replace (1 =? 0)%nat with false by reflexivity.
    destruct (0 =? 1)%nat eqn:E; [discriminate E|]. cbn [negb].
    split; [discriminate | intros [H ?]; lia].
Qed.

(** C8 fails on the code: [is not] compares the identity of the two [int]
    objects, so 257 files with 257 positions stop the run, while 256 with
    256 pass. *)
Theorem equal_counts_above_256_rejected :
  count_check (repeat tt 257) (repeat tt 257) = Raise (Exception mismatch_message) /\
  count_check (repeat tt 256) (repeat tt 256) = Ok tt.
Proof. split; vm_compute; reflexivity. Qed.

(** * Further properties of the code *)

(** ** [get_roi]: exceptions and whole-frame requests *)

Lemma axis_start_returns n centre extent :
  no_inf centre -> no_inf extent ->
  exists l e, axis_start n centre extent = Ok (l, e) /\ no_inf e.
Proof.
  intros Hc He.
  destruct centre as [c| | |], extent as [x| | |]; try contradiction.
  - destruct (axis_start_fin n c x) as (s0 & _ & ->).
    destruct (Qltb (inject_Z (n - 2)) s0);
      [destruct (Qle_bool (inject_Z (n - 2)) 0) | destruct (Qle_bool s0 0)];
      do 2 eexists; (split; [reflexivity | exact I]).
  - exists 0, NaN. split; [reflexivity | exact I].
  - exists 0, (Fin x). split; [|exact I].
    unfold axis_start. cbn [fdiv]. change (Qeq_bool 2 0) with false. reflexivity.
  - exists 0, NaN. split; [reflexivity | exact I].
Qed.

Lemma axis_extent_returns n l extent :
  no_inf extent -> exists w, axis_extent n l extent = Ok w.
Proof.
  intro He. destruct extent as [x| | |]; try contradiction.
  - unfold axis_extent, of_Z. cbn [fadd fin fgt flt isnan py_int].
    destruct (Qltb _ _); eexists; reflexivity.
  - exists n. reflexivity.
Qed.




Lemma get_roi_returns data r :
  roi_no_inf r -> exists sub, get_roi data r = Ok sub.
Proof.
  intros (Hx & Hw & Hy & Hh). unfold get_roi. rewrite get_roi_window_axes.
  destruct (axis_start_returns (Z.of_nat (shape1 data)) _ _ Hx Hw) as (l & ew & -> & Hew).
  destruct (axis_start_returns (Z.of_nat (shape0 data)) _ _ Hy Hh) as (b & eh & -> & Heh).
  cbn [bind].
  destruct (axis_extent_returns (Z.of_nat (shape1 data)) l ew Hew) as (w & ->).
  destruct (axis_extent_returns (Z.of_nat (shape0 data)) b eh Heh) as (h & ->).
  cbn [bind]. eexists. reflexivity.
Qed.



Lemma slice2_whole data :
  well_shaped data ->
  slice2 data 0 (0 + Z.of_nat (shape0 data)) 0 (0 + Z.of_nat (shape1 data)) = data.
Proof.
  intros [Hrows Hcols]. destruct data as [n0 n1 c]. cbn [shape0 shape1 cells] in *.
  unfold slice2. cbn [shape0 shape1 cells].
  rewrite !slice_len_inside, !Nat2Z.id by lia. f_equal.
  subst n0. rewrite py_slice_all.
  rewrite <- (map_id c) at 2. apply map_ext_in. intros row Hin.
  rewrite Forall_forall in Hcols. rewrite <- (Hcols row Hin). apply py_slice_all.
Qed.

(** X2.  A request whose four components are NaN selects the whole frame:
    [get_roi] returns the frame itself, whatever its size. *)
Theorem get_roi_nan_request_is_whole_frame data :
  well_shaped data -> get_roi data nan_roi = Ok data.
Proof.
  intro Hdata. unfold get_roi. rewrite get_roi_window_axes.
  cbn [nan_roi roi_x0 roi_width roi_y0 roi_height].
  change (axis_start (Z.of_nat (shape1 data)) NaN NaN) with (Ok (A := Z * fl) (0, NaN)).
  change (axis_start (Z.of_nat (shape0 data)) NaN NaN) with (Ok (A := Z * fl) (0, NaN)).
  cbn [bind].
  change (axis_extent (Z.of_nat (shape1 data)) 0 NaN) with (Ok (Z.of_nat (shape1 data))).
  change (axis_extent (Z.of_nat (shape0 data)) 0 NaN) with (Ok (Z.of_nat (shape0 data))).
  cbn [bind w_bottom w_height w_left w_width].
  now rewrite slice2_whole.
Qed.

(** X2 on the frame with one bright pixel. *)
Lemma get_roi_nan_request_is_whole_frame_witness : get_roi pixel4 nan_roi = Ok pixel4.
Proof.
  apply get_roi_nan_request_is_whole_frame. split; [reflexivity | repeat constructor].
Defined.

(** ** The first pass of [calculate_beamwidths] *)

Lemma initial_roi_fin data :
  exists cx cy,
    roi_new (initial_state data)
    = {| roi_x0 := Fin cx; roi_width := Fin (idx (shape1 data));
         roi_y0 := Fin cy; roi_height := Fin (idx (shape0 data)) |} /\
    (cx == idx (shape1 data) / 2)%Q /\ (cy == idx (shape0 data) / 2)%Q.
Proof.
  unfold initial_state, of_Z. cbn [roi_new].
  cbn [fdiv fin]. change (Qeq_bool 2 0) with false. cbn [fdiv fin].
  do 2 eexists. split; [reflexivity|].
  split; rewrite Qred_correct; reflexivity.
Qed.

Lemma initial_request_covers data :
  well_shaped data -> (2 <= shape0 data)%nat -> (2 <= shape1 data)%nat ->
  get_roi data (roi_new (initial_state data)) = Ok data.
Proof.
  intros Hdata H0 H1.
  destruct (initial_roi_fin data) as (cx & cy & -> & Hcx & Hcy).
  unfold get_roi. rewrite get_roi_window_axes.
  cbn [roi_x0 roi_width roi_y0 roi_height].
  pose proof (half_twice (idx (shape1 data))) as Hx.
  pose proof (half_twice (idx (shape0 data))) as Hy.
  destruct (axis_covering (Z.of_nat (shape1 data)) cx (idx (shape1 data)))
    as (ex' & -> & Hex); [lia | lra | unfold idx in *; lra |].
  destruct (axis_covering (Z.of_nat (shape0 data)) cy (idx (shape0 data)))
    as (ey' & -> & Hey); [lia | lra | unfold idx in *; lra |].
  cbn [bind]. rewrite Hex. cbn [bind]. rewrite Hey.
  cbn [bind w_bottom w_height w_left w_width].
  now rewrite slice2_whole.
Qed.

(** X3.  The request that [calculate_beamwidths] starts with,
    [[d0x/2, d0x, d0y/2, d0y]], selects the whole frame when the frame has
    at least 2 rows and 2 columns: the first pass takes its moments over
    the full image. *)
Theorem first_pass_sees_whole_frame data :
  well_shaped data -> (2 <= shape0 data)%nat -> (2 <= shape1 data)%nat ->
  get_roi data (roi_new (initial_state data)) = Ok data.
Proof. exact (initial_request_covers data). Qed.

(** X3 on the frame with one bright pixel. *)
Lemma first_pass_sees_whole_frame_witness :
  get_roi pixel4 (roi_new (initial_state pixel4)) = Ok pixel4.
Proof.
  apply first_pass_sees_whole_frame.
  - split; [reflexivity | repeat constructor].
  - cbn. lia.
  - cbn. lia.
Defined.

(** ** Frames too thin for [np.gradient] *)

Lemma np_gradient_short f : (length f < 2)%nat -> np_gradient f = Raise ValueError.
Proof.
  destruct f as [|f0 [|f1 tl]]; cbn [length]; intro H; try reflexivity; lia.
Qed.

Lemma scaled_arange_length s n : length (map (fmul s) (np_arange n)) = n.
Proof. unfold np_arange. now rewrite !length_map, length_seq. Qed.

Lemma moments_of_thin_array data sc second :
  (shape0 data < 2 \/ shape1 data < 2)%nat ->
  calculate_2D_moments data sc second = Raise ValueError.
Proof.
  intros H. unfold calculate_2D_moments.
  destruct (Nat.lt_ge_cases (shape1 data) 2) as [H1 | H1].
  - rewrite np_gradient_short by now rewrite scaled_arange_length. reflexivity.
  - destruct (np_gradient_ok (map (fmul (fst sc)) (np_arange (shape1 data))))
      as (g & -> & _); [now rewrite scaled_arange_length|].
    cbn [bind].
    rewrite np_gradient_short; [reflexivity|]. rewrite scaled_arange_length. lia.
Qed.

(** X4.  [calculate_2D_moments] needs two rows and two columns: with fewer
    on either axis [np.gradient] raises [ValueError], whatever the cells
    and the scale; with at least two on both it returns its five (or two)
    moments. *)
Theorem moments_need_two_rows_and_columns data sc second :
  ((shape0 data < 2 \/ shape1 data < 2)%nat ->
   calculate_2D_moments data sc second = Raise ValueError) /\
  ((2 <= shape0 data)%nat -> (2 <= shape1 data)%nat ->
   exists m, calculate_2D_moments data sc second = Ok m /\
             length m = if second then 5%nat else 2%nat).
Proof.
  split; [apply moments_of_thin_array|].
  intros H0 H1. unfold calculate_2D_moments.
  destruct (np_gradient_ok (map (fmul (fst sc)) (np_arange (shape1 data))))
    as (gx & -> & _); [now rewrite scaled_arange_length|].
  destruct (np_gradient_ok (map (fmul (snd sc)) (np_arange (shape0 data))))
    as (gy & -> & _); [now rewrite scaled_arange_length|].
  cbn [bind]. destruct second; eexists; split; reflexivity.
Qed.

(** X4 on a frame of one row and on a 4x4 frame. *)
Lemma moments_need_two_rows_and_columns_witness :
  calculate_2D_moments (frame_of [[1; 2; 3]]) default_scale true = Raise ValueError /\
  exists m, calculate_2D_moments pixel4 default_scale true = Ok m /\ length m = 5%nat.
Proof.
  split.
  - apply (moments_need_two_rows_and_columns (frame_of [[1; 2; 3]]) default_scale true).
    left. cbn. lia.
  - apply (moments_need_two_rows_and_columns pixel4 default_scale true); cbn; lia.
Defined.

Lemma slice_bound_range n i : 0 <= n -> 0 <= slice_bound n i <= n.
Proof. unfold slice_bound. destruct (i <? 0) eqn:E; lia. Qed.

Lemma slice_len_le n start stop : (slice_len n start stop <= n)%nat.
Proof.
  unfold slice_len.
  pose proof (slice_bound_range (Z.of_nat n) start ltac:(lia)).
  pose proof (slice_bound_range (Z.of_nat n) stop ltac:(lia)). lia.
Qed.

Lemma get_roi_shape data r sub :
  get_roi data r = Ok sub ->
  (shape0 sub <= shape0 data)%nat /\ (shape1 sub <= shape1 data)%nat.
Proof.
  unfold get_roi. destruct (get_roi_window data r) as [w|e]; cbn [bind]; [|discriminate].
  intro H. injection H as <-. cbn [slice2 shape0 shape1].
  split; apply slice_len_le.
Qed.

(** X5.  On a frame with fewer than 2 rows or fewer than 2 columns
    [calculate_beamwidths] raises [ValueError] in its first pass: the
    window cannot hold the two items per axis that [np.gradient] needs. *)
Theorem thin_frame_raises {M : Libm} (fuel : nat) (data : ndarray) :
  (shape0 data < 2 \/ shape1 data < 2)%nat ->
  calculate_beamwidths (S fuel) data = Some (Raise ValueError, []).
Proof.
  intro Hthin. unfold calculate_beamwidths, refine_roi.
  rewrite py_while_S, initial_state_runs. unfold loop_body.
  destruct (initial_roi_fin data) as (cx & cy & Hroi & _).
  destruct (get_roi_returns data (roi_new (initial_state data)))
    as [sub Hsub]; [rewrite Hroi; repeat split|].
  rewrite Hsub. cbn [bind].
  destruct (get_roi_shape _ _ _ Hsub) as [Hs0 Hs1].
  rewrite (moments_of_thin_array sub default_scale true) by lia.
  reflexivity.
Qed.

(** X5 on a frame of one row. *)
Lemma thin_frame_raises_witness :
  calculate_beamwidths (M := eval_libm) 5 (frame_of [[1; 2; 3]])
  = Some (Raise ValueError, []).
Proof.
  apply (thin_frame_raises (M := eval_libm) 4 (frame_of [[1; 2; 3]])).
  left. cbn. lia.
Defined.

(** ** Blank frames *)

(** X6.  On an all-zero frame of at least 2 rows and 2 columns
    [calculate_beamwidths] makes one pass over the whole frame, takes the
    NaN changes for convergence and returns without a message: the three
    beam widths and the five moments are NaN. *)
Theorem blank_frame_gives_nan_widths {M : Libm} (fuel n0 n1 : nat) :
  (2 <= n0)%nat -> (2 <= n1)%nat ->
  exists st,
    refine_roi (S (S fuel)) (uniform_frame n0 n1 (Fin 0)) = Some (Ok st) /\
    itN st = 1%nat /\
    calculate_beamwidths (S (S fuel)) (uniform_frame n0 n1 (Fin 0))
    = Some (Ok {| beamwidths := [NaN; NaN; NaN];
                  roi := roi_new (initial_state (uniform_frame n0 n1 (Fin 0)));
                  moments := [NaN; NaN; NaN; NaN; NaN] |}, []).
Proof.
  intros H0 H1. set (data := uniform_frame n0 n1 (Fin 0)).
  assert (Hbody : exists st, loop_body data (initial_state data) = Ok (Continue st) /\
            errx st = NaN /\ erry st = NaN /\ itN st = 1%nat /\ printed st = [] /\
            roi_moments st
            = Some (roi_new (initial_state data), [NaN; NaN; NaN; NaN; NaN])).
  { unfold loop_body.
    rewrite initial_request_covers;
      [|apply uniform_frame_well_shaped | exact H0 | exact H1].
    cbn [bind]. unfold data at 1.
    rewrite (proj2 (blank_frame_moments n0 n1 H0 H1)). cbn [bind item nth].
    cbn [np_sqrt fmul initial_state itN printed].
    change (it_limit <=? 1)%nat with false.
    eexists. split; [reflexivity|]. cbn [errx erry itN printed roi_moments].
    cbn [fsub fadd fabs fdiv]. repeat split. }
  destruct Hbody as (st & Hst & Hex & Hey & Hit & Hpr & Hrm).
  assert (Hrun : refine_roi (S (S fuel)) data = Some (Ok st)).
  { unfold refine_roi. rewrite py_while_S, initial_state_runs, Hst, py_while_S.
    unfold loop_cond. now rewrite Hex, Hey. }
  exists st. split; [exact Hrun|]. split; [exact Hit|].
  unfold calculate_beamwidths. rewrite Hrun, Hrm, Hpr.
  unfold ellipse. cbn [combine map item nth].
  rewrite !fmul_nan_r.
  cbn [fsub fneg fadd np_sign np_pow_half feq square fmul fdiv np_arctan].
  rewrite ?fmul_nan_r. reflexivity.
Qed.

(** X6 on the blank 4x4 frame. *)
Lemma blank_frame_gives_nan_widths_witness :
  exists st,
    refine_roi (M := eval_libm) 5 (uniform_frame 4 4 (Fin 0)) = Some (Ok st) /\
    itN st = 1%nat /\
    calculate_beamwidths (M := eval_libm) 5 (uniform_frame 4 4 (Fin 0))
    = Some (Ok {| beamwidths := [NaN; NaN; NaN];
                  roi := roi_new (initial_state (uniform_frame 4 4 (Fin 0)));
                  moments := [NaN; NaN; NaN; NaN; NaN] |}, []).
Proof.
  apply (blank_frame_gives_nan_widths (M := eval_libm) 3 4 4); lia.
Defined.

(** ** [normalize] on other arrays *)

Lemma fold_min2_nan l : fold_left min2 l NaN = NaN.
Proof. induction l as [|x l IH]; [reflexivity | exact IH]. Qed.

Lemma fold_max2_nan l : fold_left max2 l NaN = NaN.
Proof. induction l as [|x l IH]; [reflexivity | exact IH]. Qed.

Lemma fold_min2_in_nan l a : In NaN l -> fold_left min2 l a = NaN.
Proof.
  revert a. induction l as [|x l IH]; intros a H; [destruct H|].
  destruct H as [H | H].
  - subst x. cbn [fold_left]. destruct a; apply fold_min2_nan.
  - cbn [fold_left]. now apply IH.
Qed.

Lemma fold_max2_in_nan l a : In NaN l -> fold_left max2 l a = NaN.
Proof.
  revert a. induction l as [|x l IH]; intros a H; [destruct H|].
  destruct H as [H | H].
  - subst x. cbn [fold_left]. destruct a; apply fold_max2_nan.
  - cbn [fold_left]. now apply IH.
Qed.

Lemma np_min_nan l : In NaN l -> np_min l = Ok NaN.
Proof.
  destruct l as [|x l]; [contradiction|]. intros [-> | H]; cbn [np_min]; f_equal.
  - apply fold_min2_nan.
  - now apply fold_min2_in_nan.
Qed.

Lemma np_max_nan l : In NaN l -> np_max l = Ok NaN.
Proof.
  destruct l as [|x l]; [contradiction|]. intros [-> | H]; cbn [np_max]; f_equal.
  - apply fold_max2_nan.
  - now apply fold_max2_in_nan.
Qed.

(** X7.  [normalize] on degenerate input: an empty array raises
    [ValueError] (the minimum of nothing), and a single NaN cell turns the
    whole result into NaN, without the warning. *)
Theorem normalize_empty_and_nan data offset :
  (concat (cells data) = [] -> normalize data offset = (Raise ValueError, [])) /\
  (In NaN (concat (cells data)) ->
   normalize data offset = (Ok (map_cells (fun _ => NaN) data), [])).
Proof.
  split.
  - intro H. unfold normalize. now rewrite H.
  - intro H. unfold normalize. rewrite (np_min_nan _ H), (np_max_nan _ H).
    cbn [fsub fneg fadd feq]. unfold map_cells. cbn [shape0 shape1 cells].
    do 3 f_equal. rewrite map_map. apply map_ext. intro row.
    rewrite map_map. apply map_ext. intro v.
    unfold fsub. cbn [fneg]. now rewrite fadd_nan_r.
Qed.

(** X7 on an array without cells and on a 2x2 array with one NaN. *)
Lemma normalize_empty_and_nan_witness :
  normalize (frame_of []) (Fin 0) = (Raise ValueError, []) /\
  normalize {| shape0 := 2; shape1 := 2; cells := [[Fin 1; NaN]; [Fin 3; Fin 4]] |} (Fin 0)
  = (Ok {| shape0 := 2; shape1 := 2; cells := [[NaN; NaN]; [NaN; NaN]] |}, []).
Proof.
  split.
  - apply (normalize_empty_and_nan (frame_of []) (Fin 0)). reflexivity.
  - apply (normalize_empty_and_nan
             {| shape0 := 2; shape1 := 2; cells := [[Fin 1; NaN]; [Fin 3; Fin 4]] |} (Fin 0)).
    cbn. tauto.
Defined.

Lemma np_min_finite l :
  Forall finite l -> l <> [] ->
  exists m, np_min l = Ok (Fin m) /\ (forall d, In (Fin d) l -> (m <= d)%Q) /\
            In (Fin m) l.
Proof.
  intros Hl Hne. destruct l as [|x l]; [contradiction|].
  inversion Hl as [|? ? Hx Htl]; subst.
  destruct (finite_is_fin x Hx) as [a ->].
  destruct (fold_min2_fin l a Htl) as (m & Hm & Hma & Hall & Hin).
  exists m. cbn [np_min]. rewrite Hm. repeat split.
  - intros d [Hd | Hd]; [injection Hd as <-; exact Hma | now apply Hall].
  - destruct Hin as [-> | Hin]; [now left | now right].
Qed.

Lemma np_max_finite l :
  Forall finite l -> l <> [] ->
  exists m, np_max l = Ok (Fin m) /\ (forall d, In (Fin d) l -> (d <= m)%Q) /\
            In (Fin m) l.
Proof.
  intros Hl Hne. destruct l as [|x l]; [contradiction|].
  inversion Hl as [|? ? Hx Htl]; subst.
  destruct (finite_is_fin x Hx) as [a ->].
  destruct (fold_max2_fin l a Htl) as (m & Hm & Hma & Hall & Hin).
  exists m. cbn [np_max]. rewrite Hm. repeat split.
  - intros d [Hd | Hd]; [injection Hd as <-; exact Hma | now apply Hall].
  - destruct Hin as [-> | Hin]; [now left | now right].
Qed.

Lemma map_cells_map_cells f g data :
  map_cells f (map_cells g data) = map_cells (fun v => f (g v)) data.
Proof.
  unfold map_cells. cbn [shape0 shape1 cells]. f_equal.
  rewrite map_map. apply map_ext. intro row. apply map_map.
Qed.

Lemma concat_map_cells f data :
  concat (cells (map_cells f data)) = map f (concat (cells data)).
Proof. unfold map_cells. cbn [cells]. now rewrite concat_map. Qed.

(** What [normalize] does to a cell when the array is not constant. *)
Lemma normalize_nonconstant data offset lo hi :
  np_min (concat (cells data)) = Ok (Fin lo) ->
  np_max (concat (cells data)) = Ok (Fin hi) ->
  ~ (hi == lo)%Q ->
  normalize data offset =
    (Ok (map_cells
           (fun v => fadd (fdiv (fsub v (Fin lo)) (fsub (Fin hi) (Fin lo))) offset)
           data), []).
Proof.
  intros Hlo Hhi Hne. unfold normalize. rewrite Hlo, Hhi.
  assert (Hz : feq (fsub (Fin hi) (Fin lo)) (Fin 0) = false).
  { cbn [fsub fneg fadd fin feq].
    destruct (Qeq_bool_spec (Qred (hi + - lo)) 0) as [H | _]; [|reflexivity].
    exfalso. apply Hne. rewrite Qred_correct in H. lra. }
  rewrite Hz. now rewrite map_cells_map_cells.
Qed.

Lemma normalize_cell d lo hi o :
  ~ (hi == lo)%Q ->
  exists q,
    fadd (fdiv (fsub (Fin d) (Fin lo)) (fsub (Fin hi) (Fin lo))) (Fin o) = Fin q /\
    (q == (d - lo) / (hi - lo) + o)%Q /\ q = Qred q.
Proof.
  intro Hne. cbn [fsub fneg fadd fin fdiv].
  destruct (Qeq_bool_spec (Qred (hi + - lo)) 0) as [H | _].
  { exfalso. apply Hne. rewrite Qred_correct in H. lra. }
  cbn [fin fadd]. eexists. split; [reflexivity|]. split.
  - rewrite !Qred_correct. field. intro H. apply Hne. lra.
  - apply Qred_complete. symmetry. apply Qred_correct.
Qed.

Lemma unit_interval d lo hi :
  (lo <= d)%Q -> (d <= hi)%Q -> ~ (hi == lo)%Q ->
  (0 <= (d - lo) / (hi - lo) <= 1)%Q.
Proof.
  intros Hlo Hhi Hne. assert (Hpos : (0 < hi - lo)%Q) by lra. split.
  - apply Qle_shift_div_l; [exact Hpos | lra].
  - apply Qle_shift_div_r; [exact Hpos | lra].
Qed.

Lemma Forall_concat {A : Type} (P : A -> Prop) (ll : list (list A)) :
  Forall (Forall P) ll <-> Forall P (concat ll).
Proof.
  induction ll as [|l ll IH]; cbn [concat].
  - split; constructor.
  - rewrite Forall_app, <- IH. split.
    + intro H. inversion H; subst. now split.
    + intros [H1 H2]. now constructor.
Qed.




Lemma normalized_cells l lo hi o :
  Forall finite l ->
  (forall d, In (Fin d) l -> (lo <= d <= hi)%Q) -> ~ (hi == lo)%Q ->
  Forall (fun v => exists q, v = Fin q /\ (o <= q <= 1 + o)%Q /\ q = Qred q)
         (map (fun v => fadd (fdiv (fsub v (Fin lo)) (fsub (Fin hi) (Fin lo))) (Fin o)) l).
Proof.
  intros Hfin Hrange Hne. apply Forall_map. rewrite Forall_forall. intros v Hv.
  rewrite Forall_forall in Hfin.
  destruct (finite_is_fin v (Hfin v Hv)) as [d ->].
  destruct (normalize_cell d lo hi o Hne) as (q & -> & Hq & Hred).
  exists q. split; [reflexivity|]. split; [|exact Hred].
  destruct (Hrange d Hv) as [H1 H2].
  pose proof (unit_interval d lo hi H1 H2 Hne). lra.
Qed.




(** ** The header of the position file *)

Lemma split_nonempty sep s : Str.split sep s <> [].
Proof.
  destruct s as [|c s]; cbn [Str.split]; [discriminate|].
  destruct (Ascii.eqb c sep); [discriminate|].
  destruct (Str.split sep s); discriminate.
Qed.

Lemma split_with_sep sep s :
  has_char sep s = true -> exists f, nth_error (Str.split sep s) 1 = Some f.
Proof.
  induction s as [|c s IH]; cbn [has_char Str.split]; [discriminate|].
  destruct (Ascii.eqb c sep); cbn [orb].
  - intros _. pose proof (split_nonempty sep s) as Hne.
    destruct (Str.split sep s) as [|h t]; [contradiction|]. now exists h.
  - intro H. destruct (IH H) as [f Hf].
    destruct (Str.split sep s) as [|h t]; [discriminate Hf|]. now exists f.
Qed.

(** X10.  [read_position] needs a second header line with an [=]: a file
    of fewer than two lines, or a second line without [=], raises
    [IndexError]; any second line with an [=] is accepted, whatever the
    unit, and every value of the body is returned. *)
Theorem read_position_header_errors lines body :
  ((length lines < 2)%nat -> read_position lines body = Raise IndexError) /\
  (forall line, nth_error lines 1 = Some line ->
     (has_char "=" line = false -> read_position lines body = Raise IndexError) /\
     (has_char "=" line = true ->
      exists z, read_position lines body = Ok z /\ length z = length body)).
Proof.
  unfold read_position, header_unit, unit_line. split.
  - intro H. destruct lines as [|l1 [|l2 rest]]; cbn in H |- *; try reflexivity; lia.
  - intros line Hline.
    destruct lines as [|l1 [|l2 rest]]; try discriminate Hline.
    injection Hline as ->. cbn [firstn Nat.sub].
    change (nth_error [l1; line] 1) with (Some line). split; intro H.
    + now rewrite (split_without_sep _ _ H).
    + destruct (split_with_sep _ _ H) as [f ->]. cbn [bind].
      eexists. split; [reflexivity|]. apply length_map.
Qed.

(** X10 on a file of one line, on a header without [=] and on a header
    with an unknown unit. *)
Lemma read_position_header_errors_witness :
  read_position ["z position"%string] [] = Raise IndexError /\
  read_position ["z position"; "unit mm"; "1"]%string [Fin 1] = Raise IndexError /\
  exists z, read_position ["z position"; "unit = furlong"; "1"]%string [Fin 1] = Ok z /\
            length z = length [Fin 1].
Proof.
  split; [|split].
  - apply (read_position_header_errors ["z position"%string] []). cbn. lia.
  - apply (proj2 (read_position_header_errors
                    ["z position"; "unit mm"; "1"]%string [Fin 1])
                 "unit mm"%string); reflexivity.
  - apply (proj2 (read_position_header_errors
                    ["z position"; "unit = furlong"; "1"]%string [Fin 1])
                 "unit = furlong"%string); reflexivity.
Defined.

(** ** [fit_M2]: the initial guess on any input *)

Lemma fold_min2_in l a : In (fold_left min2 l a) (a :: l).
Proof.
  revert a. induction l as [|x l IH]; intro a; [now left|]. cbn [fold_left].
  destruct (IH (min2 a x)) as [H | H]; [|right; now right].
  rewrite <- H. unfold min2.
  destruct (isnan a); [now left|]. destruct (isnan x); [right; now left|].
  destruct (flt x a); [right; now left | now left].
Qed.

Lemma fold_max2_in l a : In (fold_left max2 l a) (a :: l).
Proof.
  revert a. induction l as [|x l IH]; intro a; [now left|]. cbn [fold_left].
  destruct (IH (max2 a x)) as [H | H]; [|right; now right].
  rewrite <- H. unfold max2.
  destruct (isnan a); [now left|]. destruct (isnan x); [right; now left|].
  destruct (flt a x); [right; now left | now left].
Qed.

Lemma same_value v : feq v v || (isnan v && isnan v) = true.
Proof.
  destruct v as [q| | |]; try reflexivity. cbn [feq].
  destruct (Qeq_bool_spec q q) as [_ | H]; [reflexivity|].
  exfalso. apply H. reflexivity.
Qed.

Lemma first_index_lt v l : In v l -> (first_index v l < length l)%nat.
Proof.
  induction l as [|x l IH]; intro H; [destruct H|]. cbn [first_index length].
  destruct (feq x v || (isnan x && isnan v)) eqn:E; [lia|].
  destruct H as [-> | H]; [rewrite same_value in E; discriminate|].
  specialize (IH H). lia.
Qed.

Lemma np_argmin_in_range l :
  l <> [] -> exists m i, np_min l = Ok m /\ np_argmin l = Ok i /\ (i < length l)%nat.
Proof.
  intro Hne. destruct l as [|x l]; [contradiction|]. unfold np_argmin.
  cbn [np_min bind]. do 2 eexists. split; [reflexivity|]. split; [reflexivity|].
  apply first_index_lt, fold_min2_in.
Qed.

Lemma np_argmax_in_range l :
  l <> [] -> exists m i, np_max l = Ok m /\ np_argmax l = Ok i /\ (i < length l)%nat.
Proof.
  intro Hne. destruct l as [|x l]; [contradiction|]. unfold np_argmax.
  cbn [np_max bind]. do 2 eexists. split; [reflexivity|]. split; [reflexivity|].
  apply first_index_lt, fold_max2_in.
Qed.

Lemma getitem_in_range l i : (i < length l)%nat -> exists x, getitem l i = Ok x.
Proof.
  intro H. unfold getitem. destruct (nth_error l i) as [x|] eqn:E; [now exists x|].
  apply nth_error_None in E. lia.
Qed.

(** X11.  The initial guess of [fit_M2] on any input: without diameters
    [np.min] raises [ValueError]; with diameters but no positions the
    indexing raises [IndexError]; with at least as many positions as
    diameters the guess [[ai, bi, ci]] is computed, whatever the values
    (NaN and infinities included). *)
Theorem initial_guess_errors {M : Libm} (dz z : list fl) :
  (dz = [] -> fit_M2_p0 dz z = Raise ValueError) /\
  (dz <> [] -> z = [] -> fit_M2_p0 dz z = Raise IndexError) /\
  (dz <> [] -> (length dz <= length z)%nat ->
   exists ai bi ci, fit_M2_p0 dz z = Ok [ai; bi; ci]).
Proof.
  split; [|split].
  - intros ->. reflexivity.
  - intros Hdz ->. unfold fit_M2_p0.
    destruct (np_argmin_in_range dz Hdz) as (m & i & -> & -> & _). cbn [bind].
    unfold getitem. now destruct i.
  - intros Hdz Hlen. unfold fit_M2_p0.
    destruct (np_argmin_in_range dz Hdz) as (m & i & -> & -> & Hi). cbn [bind].
    destruct (getitem_in_range z i ltac:(lia)) as [zi ->]. cbn [bind].
    destruct (np_argmax_in_range dz Hdz) as (m' & i' & -> & -> & Hi'). cbn [bind].
    destruct (getitem_in_range z i' ltac:(lia)) as [zm ->]. cbn [bind].
    do 3 eexists. reflexivity.
Qed.

(** X11 on no samples, on diameters without positions and on two samples
    of which one diameter is NaN. *)
Lemma initial_guess_errors_witness :
  fit_M2_p0 (M := eval_libm) [] [] = Raise ValueError /\
  fit_M2_p0 (M := eval_libm) [Fin 1] [] = Raise IndexError /\
  exists ai bi ci, fit_M2_p0 (M := eval_libm) [Fin 1; NaN] [Fin 0; Fin 1] = Ok [ai; bi; ci].
Proof.
  split; [|split].
  - apply (initial_guess_errors (M := eval_libm) [] []). reflexivity.
  - apply (initial_guess_errors (M := eval_libm) [Fin 1] []); [discriminate | reflexivity].
  - apply (initial_guess_errors (M := eval_libm) [Fin 1; NaN] [Fin 0; Fin 1]);
      [discriminate | cbn; lia].
Defined.

Lemma fold_min2_same l a d :
  (a == d)%Q -> Forall (fun v => exists q, v = Fin q /\ (q == d)%Q) l ->
  fold_left min2 l (Fin a) = Fin a.
Proof.
  intros Ha Hl. induction Hl as [|x l (q & -> & Hq) _ IH]; [reflexivity|].
  cbn [fold_left]. unfold min2 at 2. cbn [isnan flt].
  destruct (Qltb_spec q a) as [H | _]; [lra | exact IH].
Qed.

Lemma fold_max2_same l a d :
  (a == d)%Q -> Forall (fun v => exists q, v = Fin q /\ (q == d)%Q) l ->
  fold_left max2 l (Fin a) = Fin a.
Proof.
  intros Ha Hl. induction Hl as [|x l (q & -> & Hq) _ IH]; [reflexivity|].
  cbn [fold_left]. unfold max2 at 2. cbn [isnan flt].
  destruct (Qltb_spec a q) as [H | _]; [lra | exact IH].
Qed.

Lemma fsub_same x : isfinite (fsub x x) = true -> exists q, fsub x x = Fin q /\ (q == 0)%Q.
Proof.
  destruct x as [q| | |]; try discriminate. intros _.
  cbn [fsub fneg fadd fin]. eexists. split; [reflexivity|].
  rewrite Qred_correct. ring.
Qed.

(** X12.  When all diameters are equal (a single sample included), the
    sample of least and the sample of greatest diameter are the same one,
    the slope is [0/0], and the initial guess handed to the optimizer is
    [[NaN, NaN, NaN]]. *)
Theorem constant_widths_give_nan_guess {M : Libm} (d : Q) (tl z : list fl) :
  Forall (fun v => exists q, v = Fin q /\ (q == d)%Q) tl -> z <> [] ->
  fit_M2_p0 (Fin d :: tl) z = Ok [NaN; NaN; NaN].
Proof.
  intros Htl Hz. destruct z as [|z0 z]; [contradiction|].
  unfold fit_M2_p0, np_argmin, np_argmax. cbn [np_min np_max bind].
  rewrite (fold_min2_same tl d d (Qeq_refl d) Htl), (fold_max2_same tl d d (Qeq_refl d) Htl).
  cbn [first_index]. rewrite same_value. cbn [getitem nth_error bind].
  assert (Hslope : fdiv (fsub (Fin d) (Fin d)) (fsub z0 z0) = NaN).
  { destruct (fsub_same (Fin d) eq_refl) as (q & -> & Hq).
    destruct z0 as [c| | |]; try reflexivity.
    destruct (fsub_same (Fin c) eq_refl) as (q' & -> & Hq'). cbn [fdiv].
    destruct (Qeq_bool_spec q' 0) as [_ | H]; [|contradiction].
    destruct (Qeq_bool_spec q 0) as [_ | H]; [reflexivity | contradiction]. }
  rewrite Hslope. cbn [np_arctan square fmul].
  now rewrite fmul_nan_r, fadd_nan_r.
Qed.

(** X12 on three equal diameters. *)
Lemma constant_widths_give_nan_guess_witness :
  fit_M2_p0 (M := eval_libm) [Fin 2; Fin 2; Fin 2] [Fin 0; Fin 1; Fin 2]
  = Ok [NaN; NaN; NaN].
Proof.
  apply (constant_widths_give_nan_guess (M := eval_libm) 2 [Fin 2; Fin 2] [Fin 0; Fin 1; Fin 2]).
  - repeat constructor; eexists; (split; [reflexivity|reflexivity]).
  - discriminate.
Defined.

(** ** [fit_M2]: the values derived from the fit *)





(** ** [gaussianbeamwaist] *)




(** X16.  The profile is symmetric about the waist: the widths at the
    positions [z0 + t] equal the widths at the positions [z0 - t]. *)
Theorem gaussianbeamwaist_symmetric {M : Libm} (offsets : list Q) (z0 d0 M2 wl const : Q) :
  gaussianbeamwaist (map (fun t => Fin (z0 + t)) offsets) z0 d0 M2 wl const
  = gaussianbeamwaist (map (fun t => Fin (z0 - t)) offsets) z0 d0 M2 wl const.
Proof.
  unfold gaussianbeamwaist. destruct (py_div wl (libm_pi * (d0 / 2))) as [k|e];
    cbn [bind]; [|reflexivity].
  f_equal. rewrite !map_map. apply map_ext. intro t.
  do 4 f_equal. cbn [fsub fneg fadd]. rewrite !square_fin.
  apply fin_eq. ring.
Qed.

(** ** The focus image *)

Lemma first_index_first v l j x :
  (j < first_index v l)%nat -> nth_error l j = Some x -> feq x v = false.
Proof.
  revert j. induction l as [|y l IH]; intros j Hj Hx; [cbn in Hj; lia|].
  cbn [first_index] in Hj.
  destruct (feq y v || (isnan y && isnan v)) eqn:E; [lia|].
  apply orb_false_iff in E as [E _].
  destruct j as [|j]; cbn [nth_error] in Hx.
  - now injection Hx as <-.
  - apply (IH j); [lia | exact Hx].
Qed.

Lemma distance_fin z0 q :
  exists a, fabs (fsub (Fin z0) (Fin q)) = Fin a /\ (a == Qabs (z0 - q))%Q.
Proof.
  cbn [fsub fneg fadd fin fabs]. eexists. split; [reflexivity|].
  apply Qabs_wd. rewrite Qred_correct. reflexivity.
Qed.

(** X17.  The focus image of the script is the frame whose position is
    nearest to the fitted focus [z0]: no position is nearer, and every
    earlier position is strictly farther. *)
Theorem focus_is_nearest_position (z0 : Q) (z : list fl) :
  z <> [] -> Forall finite z ->
  exists k zk,
    focus_number z0 z = Ok k /\ nth_error z k = Some (Fin zk) /\
    (forall d, In (Fin d) z -> (Qabs (z0 - zk) <= Qabs (z0 - d))%Q) /\
    (forall j zj, (j < k)%nat -> nth_error z j = Some (Fin zj) ->
                  (Qabs (z0 - zk) < Qabs (z0 - zj))%Q).
Proof.
  intros Hne Hfin. unfold focus_number, np_argmin.
  set (dist := fun zi => fabs (fsub (Fin z0) zi)).
  assert (Hd : Forall finite (map dist z)).
  { apply Forall_map. eapply Forall_impl; [|exact Hfin].
    intros v Hv. destruct (finite_is_fin v Hv) as [q ->]. reflexivity. }
  assert (Hne' : map dist z <> []) by (destruct z; [contradiction | discriminate]).
  destruct (np_min_finite _ Hd Hne') as (m & -> & Hmin & Hin). cbn [bind].
  destruct (first_index_finds _ m Hd Hin) as (m' & Hk & Hm').
  set (k := first_index (Fin m) (map dist z)) in *.
  rewrite nth_error_map in Hk.
  destruct (nth_error z k) as [v|] eqn:Ev; [|discriminate Hk].
  rewrite Forall_forall in Hfin.
  destruct (finite_is_fin v (Hfin v (nth_error_In _ _ Ev))) as [zk ->].
  cbn [option_map] in Hk.
  destruct (distance_fin z0 zk) as (a & Ha & Haq).
  change (dist (Fin zk)) with (fabs (fsub (Fin z0) (Fin zk))) in Hk.
  rewrite Ha in Hk. injection Hk as ->.
  exists k, zk. split; [reflexivity|]. split; [exact Ev|]. split.
  - intros d Hd'. destruct (distance_fin z0 d) as (b & Hb & Hbq).
    assert (Hle : (m <= b)%Q).
    { apply Hmin. rewrite <- Hb. now apply (in_map dist). }
    rewrite <- Haq, <- Hbq, Hm'. exact Hle.
  - intros j zj Hj Hzj. destruct (distance_fin z0 zj) as (b & Hb & Hbq).
    assert (Hle : (m <= b)%Q).
    { apply Hmin. rewrite <- Hb. apply (in_map dist). exact (nth_error_In _ _ Hzj). }
    assert (Hneq : feq (Fin b) (Fin m) = false).
    { apply (first_index_first (Fin m) (map dist z) j); [exact Hj|].
      rewrite nth_error_map, Hzj. cbn [option_map]. unfold dist. now rewrite Hb. }
    cbn [feq] in Hneq.
    destruct (Qeq_bool_spec b m) as [? | Hbm]; [discriminate|].
    rewrite <- Haq, <- Hbq, Hm'. apply Qle_lteq in Hle.
    destruct Hle as [Hlt | Heq]; [exact Hlt|]. exfalso. apply Hbm. now symmetry.
Qed.

(** X17 on five positions and a focus at 2.6: the position 3. *)
Lemma focus_is_nearest_position_witness :
  exists k zk,
    focus_number (26 # 10) [Fin 0; Fin 1; Fin 2; Fin 3; Fin 4] = Ok k /\
    nth_error [Fin 0; Fin 1; Fin 2; Fin 3; Fin 4] k = Some (Fin zk) /\
    (forall d, In (Fin d) [Fin 0; Fin 1; Fin 2; Fin 3; Fin 4] ->
               (Qabs ((26 # 10) - zk) <= Qabs ((26 # 10) - d))%Q) /\
    (forall j zj, (j < k)%nat ->
                  nth_error [Fin 0; Fin 1; Fin 2; Fin 3; Fin 4] j = Some (Fin zj) ->
                  (Qabs ((26 # 10) - zk) < Qabs ((26 # 10) - zj))%Q).
Proof.
  apply (focus_is_nearest_position (26 # 10) [Fin 0; Fin 1; Fin 2; Fin 3; Fin 4]).
  - discriminate.
  - repeat constructor.
Defined.

(** ** [flatten_rgb] *)

Lemma setitem_length a i v : (i < length a)%nat -> length (setitem a i v) = length a.
Proof.
  intro H. unfold setitem. rewrite length_app. cbn [length].
  rewrite length_firstn, length_skipn. lia.
Qed.

Lemma nth_setitem a i j v d :
  (i < length a)%nat ->
  nth j (setitem a i v) d = if (j =? i)%nat then v else nth j a d.
Proof.
  intro H. unfold setitem.
  assert (Hlen : length (firstn i a) = i) by (rewrite length_firstn; lia).
  destruct (Nat.eqb_spec j i) as [-> | Hne].
  - rewrite app_nth2 by lia. rewrite Hlen, Nat.sub_diag. reflexivity.
  - destruct (Nat.lt_ge_cases j i) as [Hlt | Hge].
    + rewrite app_nth1 by lia. rewrite <- (firstn_skipn i a) at 2.
      now rewrite app_nth1 by lia.
    + rewrite app_nth2 by lia. rewrite Hlen.
      destruct (j - i)%nat as [|m] eqn:E; [lia|]. cbn [nth].
      rewrite nth_skipn. f_equal. lia.
Qed.

(** The state of the loop of [flatten_rgb] after the first [k] channels. *)
Lemma flatten_rgb_prefix im bits satlim n d0 k :
  (k <= n)%nat ->
  exists data sat,
    fold_left (flatten_rgb_channel im bits satlim) (seq 0 k) (d0, repeat (Fin 0) n)
    = (data, sat) /\
    length sat = n /\
    (forall j, nth j sat (Fin 0)
               = if (j <? k)%nat then channel_flag im bits satlim j else Fin 0) /\
    ((forall j, (j < k)%nat -> fle (saturated_fraction im bits j) satlim = false) ->
     data = d0).
Proof.
  induction k as [|k IH]; intro Hk.
  - exists d0, (repeat (Fin 0) n). cbn [seq fold_left].
    split; [reflexivity|]. split; [apply repeat_length|]. split; [|reflexivity].
    intro j. cbn [Nat.ltb Nat.leb]. apply nth_repeat.
  - destruct IH as (data & sat & Hfold & Hlen & Hnth & Hdata); [lia|].
    rewrite seq_S, fold_left_app, Hfold. cbn [fold_left Nat.add flatten_rgb_channel].
    destruct (fle (saturated_fraction im bits k) satlim) eqn:E.
    + exists (add_uint32 data (channel im k)), sat.
      split; [reflexivity|]. split; [exact Hlen|]. split.
      * intro j. rewrite Hnth. unfold channel_flag.
        destruct (Nat.ltb_spec j k), (Nat.ltb_spec j (S k)); try lia; try reflexivity.
        assert (j = k) as -> by lia. now rewrite E.
      * intro H. rewrite (H k) in E by lia. discriminate.
    + exists data, (setitem sat k (Fin 1)).
      split; [reflexivity|]. split; [rewrite setitem_length; lia|]. split.
      * intro j. rewrite nth_setitem by lia. rewrite Hnth. unfold channel_flag.
        destruct (Nat.eqb_spec j k) as [-> | Hne].
        -- rewrite E. destruct (Nat.ltb_spec k (S k)); [reflexivity | lia].
        -- destruct (Nat.ltb_spec j k), (Nat.ltb_spec j (S k)); try lia; reflexivity.
      * intro H. apply Hdata. intros j Hj. apply H. lia.
Qed.

Lemma flatten_rgb_loop_spec im bits satlim :
  exists data sat,
    flatten_rgb_loop im bits satlim = (data, sat) /\
    length sat = im_shape2 im /\
    (forall j, (j < im_shape2 im)%nat -> nth j sat (Fin 0) = channel_flag im bits satlim j) /\
    ((forall j, (j < im_shape2 im)%nat ->
                fle (saturated_fraction im bits j) satlim = false) ->
     data = repeat (repeat 0 (im_shape1 im)) (im_shape0 im)).
Proof.
  unfold flatten_rgb_loop.
  destruct (flatten_rgb_prefix im bits satlim (im_shape2 im)
              (repeat (repeat 0 (im_shape1 im)) (im_shape0 im)) (im_shape2 im) (le_n _))
    as (data & sat & -> & Hlen & Hnth & Hdata).
  exists data, sat. split; [reflexivity|]. split; [exact Hlen|]. split; [|exact Hdata].
  intros j Hj. rewrite Hnth. now destruct (Nat.ltb_spec j (im_shape2 im)); [|lia].
Qed.

Lemma count_nonneg p a :
  exists q, count_where p a = Fin q /\ (0 <= q)%Q /\
            (q == 0 <-> filter p (concat a) = [])%Q.
Proof.
  unfold count_where, of_Z. eexists. split; [reflexivity|].
  set (l := filter p (concat a)). split.
  - change 0%Q with (inject_Z 0). rewrite <- Zle_Qle. apply Nat2Z.is_nonneg.
  - split.
    + intro H. change 0%Q with (inject_Z 0) in H. apply inject_Z_injective in H.
      destruct l; [reflexivity | discriminate H].
    + intros ->. reflexivity.
Qed.

Lemma dark_channel_fraction im bits i s :
  dark_channel im i -> fle (saturated_fraction im bits i) (Fin s) = false.
Proof.
  intro Hdark. unfold saturated_fraction.
  destruct (count_nonneg (fun v => negb (v =? 0)) (channel im i)) as (nnz & -> & _ & Hnnz).
  destruct (count_nonneg (fun v => 2 ^ Z.of_nat bits - 1 <=? v) (channel im i))
    as (nsat & -> & Hsat & _).
  assert (Hz : (nnz == 0)%Q).
  { apply Hnnz. unfold channel. rewrite <- concat_map.
    unfold dark_channel in Hdark. apply Forall_concat in Hdark.
    induction Hdark as [|px l Hpx _ IH]; [reflexivity|].
    cbn [map filter]. rewrite Hpx. cbn [Z.eqb negb]. exact IH. }
  cbn [fdiv]. destruct (Qeq_bool_spec nnz 0) as [_ | H]; [|contradiction].
  destruct (Qeq_bool_spec nsat 0) as [_ | Hne]; [reflexivity|].
  destruct (Qltb_spec 0 nsat) as [_ | H]; [reflexivity|].
  exfalso. apply Hne. lra.
Qed.

(** X18.  The flags of [flatten_rgb]: there is one per channel; the flag
    of a channel is 1 when its saturated fraction fails the test
    [<= satlim] and 0 otherwise; and a channel without any non-zero pixel
    is flagged as saturated, since its fraction is [0/0]. *)
Theorem flatten_rgb_flags im bits satlim out sat_det warned :
  flatten_rgb im bits satlim = (Ok (out, sat_det), warned) ->
  length sat_det = im_shape2 im /\
  (forall i, (i < im_shape2 im)%nat ->
     nth i sat_det (Fin 0)
     = if fle (saturated_fraction im bits i) satlim then Fin 0 else Fin 1) /\
  (forall i s, (i < im_shape2 im)%nat -> satlim = Fin s -> dark_channel im i ->
     nth i sat_det (Fin 0) = Fin 1).
Proof.
  unfold flatten_rgb. destruct (im_shape2 im) as [|n] eqn:En; [discriminate|].
  rewrite <- En.
  destruct (flatten_rgb_loop_spec im bits satlim) as (data & sat & -> & Hlen & Hnth & _).
  destruct (normalize _ _) as [[o|e] w]; cbn [bind]; [|discriminate].
  intro H. injection H as <- <- <-.
  split; [exact Hlen|]. split; [exact Hnth|].
  intros i s Hi -> Hdark. rewrite (Hnth i Hi). unfold channel_flag.
  now rewrite dark_channel_fraction.
Qed.

(** X18 on [rgb_example]: the flags are [[0, 1, 1]]. *)
Lemma flatten_rgb_flags_witness :
  exists out,
    flatten_rgb rgb_example BITS SATLIM = (Ok (out, [Fin 0; Fin 1; Fin 1]), []) /\
    length [Fin 0; Fin 1; Fin 1] = im_shape2 rgb_example /\
    (forall i, (i < im_shape2 rgb_example)%nat ->
       nth i [Fin 0; Fin 1; Fin 1] (Fin 0)
       = if fle (saturated_fraction rgb_example BITS i) SATLIM then Fin 0 else Fin 1) /\
    (forall i s, (i < im_shape2 rgb_example)%nat -> SATLIM = Fin s ->
       dark_channel rgb_example i -> nth i [Fin 0; Fin 1; Fin 1] (Fin 0) = Fin 1).
Proof.
  eexists. split; [vm_compute; reflexivity|].
  eapply (flatten_rgb_flags rgb_example BITS SATLIM).
  vm_compute. reflexivity.
Defined.

Lemma normalize_flat data offset lo hi :
  np_min (concat (cells data)) = Ok (Fin lo) ->
  np_max (concat (cells data)) = Ok (Fin hi) ->
  (hi == lo)%Q ->
  normalize data offset =
    (Ok (uniform_frame (shape0 data) (shape1 data) (fadd (Fin 1) offset)),
     [warning_normalize]).
Proof.
  intros Hlo Hhi Heq. unfold normalize. rewrite Hlo, Hhi.
  cbn [fsub fneg fadd fin feq].
  destruct (Qeq_bool_spec (Qred (hi + - lo)) 0) as [_ | H].
  - now rewrite map_cells_ones.
  - exfalso. apply H. rewrite Qred_correct, Heq. ring.
Qed.

Lemma nth_ext_repeat {A : Type} (l : list A) (v d : A) n :
  length l = n -> (forall i, (i < n)%nat -> nth i l d = v) -> l = repeat v n.
Proof.
  intros Hlen Hnth. apply (nth_ext _ _ d d).
  - now rewrite repeat_length.
  - intros i Hi. rewrite nth_repeat_lt by lia. apply Hnth. lia.
Qed.

Lemma rejected_channels_flatten_to_ones im bits satlim :
  (1 <= im_shape0 im)%nat -> (1 <= im_shape1 im)%nat -> (1 <= im_shape2 im)%nat ->
  (forall i, (i < im_shape2 im)%nat ->
     fle (saturated_fraction im bits i) satlim = false \/
     (dark_channel im i /\ isfinite satlim = true)) ->
  flatten_rgb im bits satlim
  = (Ok (uniform_frame (im_shape0 im) (im_shape1 im) (Fin 1),
         repeat (Fin 1) (im_shape2 im)),
     [warning_normalize]).
Proof.
  intros H0 H1 H2 Hall.
  assert (Hall' : forall i, (i < im_shape2 im)%nat ->
                    fle (saturated_fraction im bits i) satlim = false).
  { intros i Hi. destruct (Hall i Hi) as [H | [Hdark Hfin]]; [exact H|].
    destruct satlim as [s| | |]; try discriminate. now apply dark_channel_fraction. }
  unfold flatten_rgb. destruct (im_shape2 im) as [|n] eqn:En; [lia|]. rewrite <- En in *.
  destruct (flatten_rgb_loop_spec im bits satlim) as (data & sat & -> & Hlen & Hnth & Hdata).
  rewrite (Hdata Hall').
  assert (Hframe : astype_float (im_shape0 im) (im_shape1 im)
                     (repeat (repeat 0 (im_shape1 im)) (im_shape0 im))
                   = uniform_frame (im_shape0 im) (im_shape1 im) (Fin 0)).
  { unfold astype_float, uniform_frame. now rewrite !map_repeat. }
  rewrite Hframe.
  destruct (uniform_frame_min_max (im_shape0 im) (im_shape1 im) 0 H0 H1) as [Hmin Hmax].
  rewrite (normalize_flat _ (Fin 0) 0 0 Hmin Hmax (Qeq_refl 0)). cbn [bind].
  do 3 f_equal. apply (nth_ext_repeat _ _ (Fin 0)); [exact Hlen|].
  intros i Hi. rewrite (Hnth i Hi). unfold channel_flag. now rewrite Hall'.
Qed.

(** X19.  When the saturation test fails on every channel, [flatten_rgb]
    adds no channel: the sum stays zero, [normalize] warns of the division
    by zero, and the result is a frame of ones with every flag set.  A
    black image is such an image. *)
Theorem saturated_image_flattens_to_ones im bits satlim :
  (1 <= im_shape0 im)%nat -> (1 <= im_shape1 im)%nat -> (1 <= im_shape2 im)%nat ->
  (forall i, (i < im_shape2 im)%nat ->
     fle (saturated_fraction im bits i) satlim = false \/
     (dark_channel im i /\ isfinite satlim = true)) ->
  flatten_rgb im bits satlim
  = (Ok (uniform_frame (im_shape0 im) (im_shape1 im) (Fin 1),
         repeat (Fin 1) (im_shape2 im)),
     [warning_normalize]).
Proof. exact (rejected_channels_flatten_to_ones im bits satlim). Qed.

(** X19 on a black image. *)
Lemma saturated_image_flattens_to_ones_witness :
  flatten_rgb black_image BITS SATLIM
  = (Ok (uniform_frame 2 2 (Fin 1), repeat (Fin 1) 3), [warning_normalize]).
Proof.
  apply (saturated_image_flattens_to_ones black_image BITS SATLIM);
    try (cbn; lia).
  intros i Hi. right. split; [|reflexivity].
  repeat constructor; now destruct i as [|[|[|[|i]]]].
Defined.

Lemma normalize_unit_range data out warned :
  Forall finite (concat (cells data)) ->
  normalize data (Fin 0) = (Ok out, warned) ->
  shape0 out = shape0 data /\ shape1 out = shape1 data /\
  Forall in_unit_interval (concat (cells out)) /\
  (warned = [] \/
   warned = [warning_normalize] /\
   out = uniform_frame (shape0 data) (shape1 data) (Fin 1)).
Proof.
  intros Hfin Hnorm.
  destruct (concat (cells data)) as [|x l] eqn:El.
  { unfold normalize in Hnorm. rewrite El in Hnorm. discriminate. }
  rewrite <- El in *.
  assert (Hne : concat (cells data) <> []) by (rewrite El; discriminate).
  destruct (np_min_finite _ Hfin Hne) as (lo & Hlo & Hmin & _).
  destruct (np_max_finite _ Hfin Hne) as (hi & Hhi & Hmax & _).
  destruct (Qeq_dec hi lo) as [Heq | Hneq].
  - rewrite (normalize_flat data (Fin 0) lo hi Hlo Hhi Heq) in Hnorm.
    injection Hnorm as <- <-. cbn [uniform_frame shape0 shape1 cells].
    split; [reflexivity|]. split; [reflexivity|]. split; [|right; now split].
    apply Forall_concat. apply Forall_forall. intros row Hrow.
    apply repeat_spec in Hrow. subst row. apply Forall_forall. intros v Hv.
    apply repeat_spec in Hv. subst v. exists 1%Q. split; [reflexivity | lra].
  - rewrite (normalize_nonconstant data (Fin 0) lo hi Hlo Hhi Hneq) in Hnorm.
    injection Hnorm as <- <-. cbn [map_cells shape0 shape1].
    split; [reflexivity|]. split; [reflexivity|]. split; [|now left].
    rewrite concat_map_cells.
    eapply Forall_impl; [|apply (normalized_cells _ lo hi 0 Hfin); [|exact Hneq]].
    + intros v (q & -> & Hq & _). exists q. split; [reflexivity | lra].
    + intros d Hd. split; [now apply Hmin | now apply Hmax].
Qed.

(** X20.  Whenever [flatten_rgb] returns, the flattened frame has the rows
    and columns of the image and every cell lies between 0 and 1; either
    no warning was issued, or the summed channels were constant and the
    frame is all ones. *)
Theorem flatten_rgb_output_range im bits satlim out sat_det warned :
  flatten_rgb im bits satlim = (Ok (out, sat_det), warned) ->
  shape0 out = im_shape0 im /\ shape1 out = im_shape1 im /\
  Forall in_unit_interval (concat (cells out)) /\
  (warned = [] \/
   warned = [warning_normalize] /\
   out = uniform_frame (im_shape0 im) (im_shape1 im) (Fin 1)).
Proof.
  unfold flatten_rgb. destruct (im_shape2 im) as [|n]; [discriminate|].
  destruct (flatten_rgb_loop im bits satlim) as [data sat].
  destruct (normalize _ _) as [[o|e] w] eqn:En; cbn [bind]; [|discriminate].
  intro H. injection H as <- <- <-.
  apply (normalize_unit_range _ _ _) in En; [exact En|].
  cbn [astype_float cells]. apply Forall_concat. apply Forall_map.
  apply Forall_forall. intros row _. apply Forall_map. apply Forall_forall.
  intros v _. reflexivity.
Qed.

(** X20 on [rgb_example]. *)
Lemma flatten_rgb_output_range_witness :
  exists out sat_det warned,
    flatten_rgb rgb_example BITS SATLIM = (Ok (out, sat_det), warned) /\
    shape0 out = im_shape0 rgb_example /\ shape1 out = im_shape1 rgb_example /\
    Forall in_unit_interval (concat (cells out)) /\
    (warned = [] \/
     warned = [warning_normalize] /\
     out = uniform_frame (im_shape0 rgb_example) (im_shape1 rgb_example) (Fin 1)).
Proof.
  do 3 eexists. split; [vm_compute; reflexivity|].
  eapply (flatten_rgb_output_range rgb_example BITS SATLIM).
  vm_compute. reflexivity.
Defined.

(** ** The count check, again *)

Lemma count_check_outcomes {A B : Type} (files : list A) (z : list B) :
  count_check files z = Ok tt \/
  count_check files z = Raise (Exception mismatch_message).
Proof.
  unfold count_check, np_size, stop.
  destruct (new_int 0 (Z.of_nat (length files))) as [nf heap].
  destruct (new_int heap (Z.of_nat (length z))) as [nz heap'].
  destruct (py_is nf nz); [now left | now right].
Qed.

(** X21.  The count check never lets a mismatch through: when the number
    of image files differs from the number of positions, the script stops
    with its message. *)
Theorem unequal_counts_rejected {A B : Type} (files : list A) (z : list B) :
  length files <> length z ->
  count_check files z = Raise (Exception mismatch_message).
Proof.
  intro Hne. destruct (count_check_outcomes files z) as [H | H]; [|exact H].
  apply count_check_passes in H. destruct H as [H _]. contradiction.
Qed.

(** X21 on three files and two positions. *)
Lemma unequal_counts_rejected_witness :
  count_check ["a.jpg"; "b.jpg"; "c.jpg"]%string [Fin 1; Fin 2]
  = Raise (Exception mismatch_message).
Proof.
  apply (unequal_counts_rejected ["a.jpg"; "b.jpg"; "c.jpg"]%string [Fin 1; Fin 2]).
  cbn. lia.
Defined.

(** ** The moments of a frame of finite cells *)

Lemma scaled_arange_pitch s n :
  map (fmul (Fin s)) (np_arange n) = map (fun i => fin (s * idx i)) (seq 0 n).
Proof.
  unfold np_arange. rewrite map_map. apply map_ext. intro i.
  rewrite of_Z_fin, fmul_Fin_fin. reflexivity.
Qed.

Lemma gradient_from_pitch s k m :
  gradient_from (fin (s * idx k)) (map (fun i => fin (s * idx i)) (seq (S k) m))
  = repeat (fin s) m.
Proof.
  revert k. induction m as [|m IH]; intro k; [reflexivity|].
  destruct m as [|m].
  - cbn [seq map gradient_from repeat]. rewrite fsub_fin.
    f_equal. apply fin_eq. rewrite idx_succ. ring.
  - specialize (IH (S k)).
    change (seq (S k) (S (S m))) with (S k :: S (S k) :: seq (S (S (S k))) m).
    change (seq (S (S k)) (S m)) with (S (S k) :: seq (S (S (S k))) m) in IH.
    cbn [map gradient_from] in *. rewrite IH. cbn [repeat]. f_equal.
    rewrite fsub_fin. change (Fin 2) with (fin 2).
    rewrite fdiv_fin by discriminate. apply fin_eq. rewrite !idx_succ. field.
Qed.

Lemma gradient_of_pitch s n :
  (2 <= n)%nat ->
  np_gradient (map (fun i => fin (s * idx i)) (seq 0 n)) = Ok (repeat (fin s) n).
Proof.
  intro Hn. destruct n as [|[|n]]; try lia.
  change (seq 0 (S (S n))) with (0%nat :: seq 1 (S n)).
  pose proof (gradient_from_pitch s 0 (S n)) as H.
  change (seq 1 (S n)) with (1%nat :: seq 2 n) in *.
  cbn [map np_gradient] in *. rewrite H. cbn [repeat].
  assert (fsub (fin (s * idx 1)) (fin (s * idx 0)) = fin s) as ->.
  { rewrite fsub_fin. apply fin_eq. unfold idx. cbn. ring. }
  reflexivity.
Qed.

Lemma combine_map_seq {A B C : Type} (R : nat -> A) (Y : nat -> B) (g : C) k n :
  combine (map R (seq k n)) (combine (map Y (seq k n)) (repeat g n))
  = map (fun j => (R j, (Y j, g))) (seq k n).
Proof.
  revert k. induction n as [|n IH]; intro k; [reflexivity|].
  cbn [repeat seq map combine]. now rewrite IH.
Qed.

(** The sum over a frame of finite cells, when each term is a known finite
    value. *)
Lemma grid_sum_table n0 n1 c (X Y : nat -> fl) (gx gy : Q)
    (term : fl -> fl -> fl -> fl) (T : nat -> nat -> Q) :
  (forall i j,
     fmul (fmul (term (Fin (c j i)) (X i) (Y j)) (fin gx)) (fin gy) = fin (T i j)) ->
  grid_sum (table_frame n0 n1 c)
    (map X (seq 0 n1)) (repeat (fin gx) n1)
    (map Y (seq 0 n0)) (repeat (fin gy) n0) term
  = fin (qsum (fun j => qsum (fun i => T i j) (seq 0 n1)) (seq 0 n0)).
Proof.
  intro Hterm. unfold grid_sum, np_sum, table_frame. cbn [cells].
  rewrite combine_map_seq, map_map.
  rewrite (map_ext _ (fun j => map (fun i => fin (T i j)) (seq 0 n1))).
  - change (Fin 0) with (fin 0). rewrite fold_fadd_rows. apply fin_eq. ring.
  - intro j. rewrite combine_map_seq, map_map. apply map_ext. intro i.
    apply Hterm.
Qed.

Lemma wsum_weighted n0 n1 c W g :
  (qsum (fun j => qsum (fun i => c j i * W i j * g) (seq 0 n1)) (seq 0 n0)
   == g * wsum n0 n1 c W)%Q.
Proof.
  unfold wsum. rewrite <- qsum_scale. apply qsum_ext. intros j _.
  rewrite <- qsum_scale. apply qsum_ext. intros i _. ring.
Qed.


Section TableFrame.

Local Open Scope Q_scope.

Variables (n0 n1 : nat) (c : nat -> nat -> Q) (sx sy : Q).
Hypothesis Hn0 : (2 <= n0)%nat.
Hypothesis Hn1 : (2 <= n1)%nat.
Hypothesis Hsx : ~ (sx == 0)%Q.
Hypothesis Hsy : ~ (sy == 0)%Q.
Hypothesis Hweight : ~ (wsum n0 n1 c (fun _ _ => 1) == 0)%Q.

Local Abbreviation X := (fun i => fin (sx * idx i)).
Local Abbreviation Y := (fun j => fin (sy * idx j)).

(** One quotient [np.sum(term*dx*dy)/A] of the source, for a term whose
    value on a pixel is [c j i * W i j]. *)
Lemma table_quotient (term : fl -> fl -> fl -> fl) (W : nat -> nat -> Q) :
  (forall i j, term (Fin (c j i)) (X i) (Y j) = fin (c j i * W i j)) ->
  fdiv (grid_sum (table_frame n0 n1 c)
          (map X (seq 0 n1)) (repeat (fin sx) n1)
          (map Y (seq 0 n0)) (repeat (fin sy) n0) term)
       (fin (sx * sy * wsum n0 n1 c (fun _ _ => 1)))
  = fin (wmean n0 n1 c W).
Proof.
  intro Hterm.
  rewrite (grid_sum_table _ _ _ _ _ _ _ _ (fun i j => c j i * W i j * (sx * sy))%Q).
  - rewrite fdiv_fin.
    + apply fin_eq. rewrite wsum_weighted. unfold wmean. field.
      repeat split; assumption.
    + intro H. apply Hweight.
      apply Qmult_integral in H. destruct H as [H | H]; [|exact H].
      apply Qmult_integral in H. destruct H; contradiction.
  - intros i j. rewrite Hterm, !fmul_fin. apply fin_eq. ring.
Qed.

Lemma table_weight :
  grid_sum (table_frame n0 n1 c)
    (map X (seq 0 n1)) (repeat (fin sx) n1)
    (map Y (seq 0 n0)) (repeat (fin sy) n0) (fun d _ _ => d)
  = fin (sx * sy * wsum n0 n1 c (fun _ _ => 1)).
Proof.
  rewrite (grid_sum_table _ _ _ _ _ _ _ _ (fun i j => c j i * 1 * (sx * sy))%Q).
  - apply fin_eq. apply wsum_weighted.
  - intros i j. rewrite fmul_Fin_fin, fmul_fin. apply fin_eq. ring.
Qed.

(** The moments of a frame of finite cells whose total weight is not
    zero, in closed form. *)
Lemma table_moments :
  calculate_2D_moments (table_frame n0 n1 c) (Fin sx, Fin sy) true
  = Ok [fin (mean_x n0 n1 c sx); fin (mean_y n0 n1 c sy);
        fin (var_x n0 n1 c sx); fin (var_y n0 n1 c sy);
        fin (cov_xy n0 n1 c sx sy)].
Proof.
  unfold calculate_2D_moments. cbn [fst snd shape0 shape1 table_frame].
  rewrite !scaled_arange_pitch, !gradient_of_pitch by assumption. cbn [bind].
  fold (table_frame n0 n1 c). rewrite !table_weight.
  rewrite (table_quotient (fun d xi _ => fmul d xi) (fun i _ => sx * idx i)%Q)
    by (intros i j; apply fmul_Fin_fin).
  rewrite (table_quotient (fun d _ yj => fmul d yj) (fun _ j => sy * idx j)%Q)
    by (intros i j; apply fmul_Fin_fin).
  fold (mean_x n0 n1 c sx). fold (mean_y n0 n1 c sy).
  rewrite (table_quotient
             (fun d xi _ => fmul d (square (fsub xi (fin (mean_x n0 n1 c sx)))))
             (fun i _ => (sx * idx i - mean_x n0 n1 c sx)
                         * (sx * idx i - mean_x n0 n1 c sx))%Q)
    by (intros i j; rewrite fsub_fin, square_fin; apply fmul_Fin_fin).
  rewrite (table_quotient
             (fun d _ yj => fmul d (square (fsub yj (fin (mean_y n0 n1 c sy)))))
             (fun _ j => (sy * idx j - mean_y n0 n1 c sy)
                         * (sy * idx j - mean_y n0 n1 c sy))%Q)
    by (intros i j; rewrite fsub_fin, square_fin; apply fmul_Fin_fin).
  rewrite (table_quotient
             (fun d xi yj => fmul (fmul d (fsub xi (fin (mean_x n0 n1 c sx))))
                                  (fsub yj (fin (mean_y n0 n1 c sy))))
             (fun i j => (sx * idx i - mean_x n0 n1 c sx)
                         * (sy * idx j - mean_y n0 n1 c sy))%Q)
    by (intros i j; rewrite !fsub_fin, fmul_Fin_fin, fmul_fin; apply fin_eq; ring).
  reflexivity.
Qed.

End TableFrame.








Lemma idx_le i n : (i < n)%nat -> (0 <= idx i <= idx n - 1)%Q.
Proof.
  intro H. unfold idx. split.
  - change 0%Q with (inject_Z 0). rewrite <- Zle_Qle. lia.
  - change 1%Q with (inject_Z 1). rewrite <- inject_Z_sub, <- Zle_Qle. lia.
Qed.
















(** ** Uniform frames *)






Local Open Scope Q_scope.


Local Close Scope Q_scope.


(** ** Requests narrower than a pixel *)

Lemma trunc_fraction q : (0 <= q)%Q -> (q < 1)%Q -> trunc q = 0.
Proof.
  intros H0 H1. rewrite trunc_floor by exact H0.
  pose proof (Qfloor_le q) as Hle.
  assert (Hlt : (inject_Z (Qfloor q) < inject_Z 1)%Q) by (change (inject_Z 1) with 1%Q; lra).
  rewrite <- Zlt_Qlt in Hlt.
  assert (Hge : (inject_Z 0 <= q)%Q) by exact H0.
  apply Qfloor_resp_le in Hge. rewrite Qfloor_Z in Hge. lia.
Qed.

(** A request of less than one pixel around a centre that is not negative
    selects nothing on its axis. *)
Lemma axis_pinpoint n c e :
  2 <= n -> (0 <= c)%Q -> (0 <= e)%Q -> (e < 1)%Q ->
  exists l e', axis_start n (Fin c) (Fin e) = Ok (l, Fin e') /\
               0 <= l <= n - 2 /\ axis_extent n l (Fin e') = Ok 0.
Proof.
  intros Hn Hc He0 He1.
  assert (HN : (inject_Z (n - 2) == inject_Z n - 2)%Q) by apply inject_Z_sub.
  assert (HN2 : (0 <= inject_Z (n - 2))%Q)
    by (change 0%Q with (inject_Z 0); rewrite <- Zle_Qle; lia).
  pose proof (half_twice e) as Hhalf.
  assert (Hextent : forall l e', 0 <= l <= n - 2 -> (0 <= e')%Q -> (e' < 1)%Q ->
                      axis_extent n l (Fin e') = Ok 0).
  { intros l e' Hl H0 H1. unfold axis_extent, fgt, of_Z. cbn [fadd fin flt isnan py_int].
    destruct (Qltb_spec (inject_Z n) (Qred (inject_Z l + e'))) as [H | _].
    - exfalso. rewrite Qred_correct in H.
      assert (Hl' : (inject_Z l <= inject_Z (n - 2))%Q) by (rewrite <- Zle_Qle; lia).
      lra.
    - f_equal. now apply trunc_fraction. }
  destruct (axis_start_fin n c e) as (s0 & Hs0 & ->).
  destruct (Qltb_spec (inject_Z (n - 2)) s0) as [Hfar | Hnear].
  - destruct (Qle_bool_spec (inject_Z (n - 2)) 0) as [H | H].
    + exists 0, (Qred (e + inject_Z (n - 2))). split; [reflexivity|].
      split; [lia|]. apply Hextent; [lia | |]; rewrite Qred_correct; lra.
    + exists (trunc (inject_Z (n - 2))), e. split; [reflexivity|].
      rewrite (trunc_eq (inject_Z (n - 2)) (n - 2)) by (reflexivity || lia).
      split; [lia|]. apply Hextent; [lia | exact He0 | exact He1].
  - apply Qnot_lt_le in Hnear.
    destruct (Qle_bool_spec s0 0) as [H | H].
    + exists 0, (Qred (e + s0)). split; [reflexivity|].
      split; [lia|]. apply Hextent; [lia | |]; rewrite Qred_correct; lra.
    + exists (trunc s0), e. split; [reflexivity|]. apply Qnot_le_lt in H.
      assert (0 <= trunc s0 <= n - 2).
      { split; [apply trunc_ge; [exact (Qlt_le_weak _ _ H) | lia]
               | apply trunc_le; [exact Hnear | lia]]. }
      split; [assumption|]. apply Hextent; assumption.
Qed.

Lemma narrow_columns_raise {M : Libm} data st cx ex cy ey :
  (2 <= shape1 data)%nat ->
  roi_new st
  = {| roi_x0 := Fin cx; roi_width := Fin ex; roi_y0 := Fin cy; roi_height := Fin ey |} ->
  (0 <= cx)%Q -> (0 <= ex)%Q -> (ex < 1)%Q ->
  loop_body data st = Raise ValueError.
Proof.
  intros H1 Hroi Hcx Hex0 Hex1. unfold loop_body. rewrite Hroi.
  unfold get_roi. rewrite get_roi_window_axes.
  cbn [roi_x0 roi_width roi_y0 roi_height].
  destruct (axis_pinpoint (Z.of_nat (shape1 data)) cx ex) as (l & e' & -> & Hl & Hw);
    [lia | assumption | assumption | assumption |].
  destruct (axis_start_returns (Z.of_nat (shape0 data)) (Fin cy) (Fin ey) I I)
    as (b & eh & -> & Heh).
  cbn [bind]. rewrite Hw. cbn [bind].
  destruct (axis_extent_returns (Z.of_nat (shape0 data)) b eh Heh) as (h & ->).
  cbn [bind w_bottom w_height w_left w_width].
  rewrite moments_of_thin_array; [reflexivity|]. right. cbn [slice2 shape1].
  rewrite slice_len_inside by lia. cbn. lia.
Qed.

Lemma narrow_rows_raise {M : Libm} data st cx ex cy ey :
  (2 <= shape0 data)%nat ->
  roi_new st
  = {| roi_x0 := Fin cx; roi_width := Fin ex; roi_y0 := Fin cy; roi_height := Fin ey |} ->
  (0 <= cy)%Q -> (0 <= ey)%Q -> (ey < 1)%Q ->
  loop_body data st = Raise ValueError.
Proof.
  intros H0 Hroi Hcy Hey0 Hey1. unfold loop_body. rewrite Hroi.
  unfold get_roi. rewrite get_roi_window_axes.
  cbn [roi_x0 roi_width roi_y0 roi_height].
  destruct (axis_start_returns (Z.of_nat (shape1 data)) (Fin cx) (Fin ex) I I)
    as (l & ew & -> & Hew).
  destruct (axis_pinpoint (Z.of_nat (shape0 data)) cy ey) as (b & e' & -> & Hb & Hh);
    [lia | assumption | assumption | assumption |].
  cbn [bind].
  destruct (axis_extent_returns (Z.of_nat (shape1 data)) l ew Hew) as (w & ->).
  cbn [bind]. rewrite Hh. cbn [bind w_bottom w_height w_left w_width].
  rewrite moments_of_thin_array; [reflexivity|]. left. cbn [slice2 shape0].
  rewrite slice_len_inside by lia. cbn. lia.
Qed.

(** X26.  A pass of the loop whose request is narrower than one pixel on
    an axis, around a centre that is not negative, raises [ValueError]:
    the window holds no column (or no row), and [np.gradient] refuses
    it.  The loop asks for [3*dx = 12*sqrt(sig2x)], so a beam whose
    standard deviation falls below a twelfth of a pixel stops the
    analysis. *)
Theorem narrow_request_raises {M : Libm} data st cx ex cy ey :
  (2 <= shape0 data)%nat -> (2 <= shape1 data)%nat ->
  roi_new st
  = {| roi_x0 := Fin cx; roi_width := Fin ex; roi_y0 := Fin cy; roi_height := Fin ey |} ->
  (0 <= cx)%Q /\ (0 <= ex)%Q /\ (ex < 1)%Q \/ (0 <= cy)%Q /\ (0 <= ey)%Q /\ (ey < 1)%Q ->
  loop_body data st = Raise ValueError.
Proof.
  intros H0 H1 Hroi [(Hc & He0 & He1) | (Hc & He0 & He1)].
  - now apply (narrow_columns_raise data st cx ex cy ey).
  - now apply (narrow_rows_raise data st cx ex cy ey).
Qed.

(** X26 on a 4x4 frame and a request half a pixel wide. *)
Lemma narrow_request_raises_witness :
  loop_body (M := eval_libm) pixel4
    {| errx := Fin 1; erry := Fin 1; itN := 1; d0x := Fin 4; d0y := Fin 4;
       roi_new := roi_of 1 (1 # 2) 2 4; roi_moments := None; printed := [] |}
  = Raise ValueError.
Proof.
  apply (narrow_request_raises (M := eval_libm) pixel4 _ 1 (1 # 2) 2 4).
  - cbn. lia.
  - cbn. lia.
  - reflexivity.
  - left. repeat split; discriminate.
Defined.

(** ** Frames with a single lit pixel *)

Lemma table_frame_well_shaped n0 n1 c : well_shaped (table_frame n0 n1 c).
Proof.
  split; cbn [table_frame cells shape0 shape1].
  - now rewrite length_map, length_seq.
  - apply Forall_map, Forall_forall. intros j _. now rewrite length_map, length_seq.
Qed.

Lemma qsum_zero f l : (forall i, In i l -> (f i == 0)%Q) -> (qsum f l == 0)%Q.
Proof.
  intro H. rewrite (qsum_ext f (fun _ => 0%Q) l H), qsum_const. ring.
Qed.

Lemma qsum_single f l s :
  NoDup l -> In s l -> (forall i, In i l -> i <> s -> (f i == 0)%Q) ->
  (qsum f l == f s)%Q.
Proof.
  induction l as [|i l IH]; intros Hnd Hin Hz; [destruct Hin|].
  inversion Hnd as [|? ? Hni Hnd']; subst. cbn [qsum].
  destruct Hin as [-> | Hin].
  - rewrite qsum_zero; [ring|]. intros i Hi. apply Hz; [now right|].
    intros ->. contradiction.
  - rewrite (Hz i); [|now left | intros ->; contradiction].
    rewrite IH; [ring | exact Hnd' | exact Hin|].
    intros k Hk. apply Hz. now right.
Qed.

Lemma wsum_single_pixel n0 n1 r s v W :
  (r < n0)%nat -> (s < n1)%nat ->
  (wsum n0 n1 (fun j i => if (j =? r)%nat && (i =? s)%nat then v else 0%Q) W
   == v * W s r)%Q.
Proof.
  intros Hr Hs. unfold wsum.
  rewrite (qsum_single _ (seq 0 n0) r); [|apply seq_NoDup | apply in_seq; lia|].
  - rewrite (qsum_single _ (seq 0 n1) s); [|apply seq_NoDup | apply in_seq; lia|].
    + now rewrite !Nat.eqb_refl.
    + intros i _ Hi. apply Nat.eqb_neq in Hi. rewrite Hi, andb_false_r. ring.
  - intros j _ Hj. apply Nat.eqb_neq in Hj. apply qsum_zero. intros i _.
    rewrite Hj. cbn [andb]. ring.
Qed.

Local Open Scope Q_scope.

Lemma single_pixel_moments n0 n1 r s v :
  (2 <= n0)%nat -> (2 <= n1)%nat -> (r < n0)%nat -> (s < n1)%nat -> ~ v == 0 ->
  calculate_2D_moments (single_pixel_frame n0 n1 r s v) default_scale true
  = Ok [coord s; coord r; Fin 0; Fin 0; Fin 0].
Proof.
  intros H0 H1 Hr Hs Hv. unfold single_pixel_frame, default_scale.
  set (c := fun j i => if (j =? r)%nat && (i =? s)%nat then v else 0).
  assert (Hone : wsum n0 n1 c (fun _ _ => 1) == v)
    by (unfold c; rewrite wsum_single_pixel by assumption; ring).
  assert (Hw : ~ wsum n0 n1 c (fun _ _ => 1) == 0) by (now rewrite Hone).
  assert (Hmx : mean_x n0 n1 c 1 == idx s).
  { unfold mean_x, wmean. rewrite Hone. unfold c.
    rewrite wsum_single_pixel by assumption. now field. }
  assert (Hmy : mean_y n0 n1 c 1 == idx r).
  { unfold mean_y, wmean. rewrite Hone. unfold c.
    rewrite wsum_single_pixel by assumption. now field. }
  rewrite (table_moments n0 n1 c 1 1 H0 H1) by (try discriminate; assumption).
  unfold coord. change (Fin 0) with (fin 0).
  do 2 f_equal; [apply fin_eq; exact Hmx|]. f_equal; [apply fin_eq; exact Hmy|].
  f_equal; [|f_equal; [|f_equal]]; apply fin_eq.
  - unfold var_x, wmean. rewrite Hone. unfold c at 1.
    rewrite wsum_single_pixel by assumption. fold c. rewrite Hmx. now field.
  - unfold var_y, wmean. rewrite Hone. unfold c at 1.
    rewrite wsum_single_pixel by assumption. fold c. rewrite Hmy. now field.
  - unfold cov_xy, wmean. rewrite Hone. unfold c at 1.
    rewrite wsum_single_pixel by assumption. fold c. rewrite Hmx, Hmy. now field.
Qed.

Local Close Scope Q_scope.

Lemma full_change n : (2 <= n)%nat ->
  fgt (fdiv (fabs (fsub (Fin 0) (Fin (idx n)))) (Fin (idx n))) error_limit = true.
Proof.
  intro Hn. pose proof (idx_ge_2 n Hn) as Hidx.
  cbn [fsub fneg fadd fin fabs fdiv].
  destruct (Qeq_bool_spec (idx n) 0) as [H | _]; [lra|].
  unfold fgt, error_limit, fin. cbn [flt].
  destruct (Qltb_spec (1 # 10000) (Qred (Qabs (Qred (0 + - idx n)) / idx n)))
    as [_ | H]; [reflexivity|].
  exfalso. apply H. rewrite Qred_correct.
  assert (Habs : (Qabs (Qred (0 + - idx n)) == idx n)%Q).
  { rewrite (Qabs_wd _ (- idx n)) by (rewrite Qred_correct; ring).
    rewrite Qabs_opp. apply Qabs_pos. lra. }
  rewrite Habs. setoid_replace (idx n / idx n)%Q with 1%Q by (field; lra).
  reflexivity.
Qed.

Lemma single_pixel_fails {M : Libm} (fuel n0 n1 r s : nat) (v : Q) :
  (2 <= n0)%nat -> (2 <= n1)%nat -> (r < n0)%nat -> (s < n1)%nat -> ~ (v == 0)%Q ->
  (libm_sqrt 0 == 0)%Q ->
  calculate_beamwidths (S (S fuel)) (single_pixel_frame n0 n1 r s v)
  = Some (Raise ValueError, []).
Proof.
  intros H0 H1 Hr Hs Hv Hsqrt. set (data := single_pixel_frame n0 n1 r s v).
  assert (Hzero : forall k, fmul (Fin k) (np_sqrt (Fin 0)) = Fin 0).
  { intro k. cbn [np_sqrt]. change (Qltb 0 0) with false. cbn [fmul].
    change (Fin 0) with (fin 0). apply fin_eq. rewrite Hsqrt. ring. }
  destruct (initial_roi_fin data) as (cx0 & cy0 & Hroi & Hcx0 & Hcy0).
  assert (Hbody : exists st cx cy,
            loop_body data (initial_state data) = Ok (Continue st) /\
            loop_cond st = true /\
            roi_new st = {| roi_x0 := Fin cx; roi_width := Fin 0;
                            roi_y0 := Fin cy; roi_height := Fin 0 |} /\
            (0 <= cx)%Q).
  { unfold loop_body.
    rewrite initial_request_covers;
      [|apply table_frame_well_shaped | exact H0 | exact H1].
    cbn [bind]. unfold data at 1.
    rewrite (single_pixel_moments n0 n1 r s v) by assumption.
    cbn [bind item nth]. rewrite !Hzero.
    cbn [initial_state itN printed]. change (it_limit <=? 1)%nat with false.
    change (fmul (Fin 3) (Fin 0)) with (Fin 0).
    rewrite Hroi. cbn [roi_x0 roi_width roi_y0 roi_height].
    unfold coord. cbn [fdiv]. change (Qeq_bool 2 0) with false.
    cbn [fadd fsub fneg fin].
    do 3 eexists. split; [reflexivity|]. split; [|split; [reflexivity|]].
    - apply orb_true_iff. left. exact (full_change n1 H1).
    - rewrite !Qred_correct, Hcx0.
      change (shape1 data) with n1.
      destruct (idx_le s n1 Hs) as [Hs0 _].
      setoid_replace (idx s + idx n1 / 2 + - (idx n1 / 2))%Q with (idx s) by ring.
      exact Hs0. }
  destruct Hbody as (st & cx & cy & Hst & Hcond & Hnew & Hcx).
  unfold calculate_beamwidths, refine_roi.
  rewrite py_while_S, initial_state_runs, Hst, py_while_S, Hcond.
  rewrite (narrow_columns_raise data st cx 0 cy 0);
    [reflexivity | exact H1 | exact Hnew | exact Hcx | apply Qle_refl | reflexivity].
Qed.

(** X27.  A frame with a single lit pixel: the centroid is that pixel and
    the second moments are zero, so the loop asks next for a window of
    width 0, and [calculate_beamwidths] raises [ValueError] in its second
    pass (for a square root with [sqrt 0 = 0]). *)
Theorem single_pixel_frame_fails {M : Libm} (fuel n0 n1 r s : nat) (v : Q) :
  (2 <= n0)%nat -> (2 <= n1)%nat -> (r < n0)%nat -> (s < n1)%nat -> ~ (v == 0)%Q ->
  (libm_sqrt 0 == 0)%Q ->
  calculate_2D_moments (single_pixel_frame n0 n1 r s v) default_scale true
  = Ok [coord s; coord r; Fin 0; Fin 0; Fin 0] /\
  calculate_beamwidths (S (S fuel)) (single_pixel_frame n0 n1 r s v)
  = Some (Raise ValueError, []).
Proof.
  intros H0 H1 Hr Hs Hv Hsqrt. split.
  - now apply single_pixel_moments.
  - now apply single_pixel_fails.
Qed.

(** X27 on a frame of 5 rows and 6 columns, lit in row 2 and column 3. *)
Lemma single_pixel_frame_fails_witness :
  calculate_2D_moments (single_pixel_frame 5 6 2 3 9) default_scale true
  = Ok [coord 3; coord 2; Fin 0; Fin 0; Fin 0] /\
  calculate_beamwidths (M := eval_libm) 5 (single_pixel_frame 5 6 2 3 9)
  = Some (Raise ValueError, []).
Proof.
  apply (single_pixel_frame_fails (M := eval_libm) 3 5 6 2 3 9);
    try lia; try discriminate. reflexivity.
Defined.

(** ** The ellipse of equal variances *)

Lemma fadd_zero_sides x y : y = Fin 0 \/ y = NaN -> fadd x y = fsub x y.
Proof.
  intros [-> | ->].
  - destruct x; reflexivity.
  - unfold fsub. cbn [fneg]. reflexivity.
Qed.

(** X28.  When the two variances are equal, the two beam widths that
    [calculate_beamwidths] computes are equal, and the angle is [pi/4]
    times the sign of the covariance: 0 without correlation. *)
Theorem equal_variances_give_equal_widths {M : Libm} (r : ROI) (ax ay : fl) (vx vy vxy : Q) :
  (vx == vy)%Q ->
  exists d phi,
    beamwidths (ellipse r [ax; ay; Fin vx; Fin vy; Fin vxy]) = [d; d; phi] /\
    ((vxy == 0)%Q -> phi = Fin 0) /\
    ((0 < vxy)%Q -> phi = fin (libm_pi / 4)) /\
    ((vxy < 0)%Q -> phi = fin (- (libm_pi / 4))).
Proof.
  intro Hv. unfold ellipse. cbn [combine map item nth beamwidths].
  set (A := square (pix2len (Fin 1))).
  assert (HA : exists k, A = Fin k /\ (0 < k)%Q).
  { eexists. split; [vm_compute; reflexivity | reflexivity]. }
  destruct HA as (k & -> & Hk).
  assert (Hsame : fmul (Fin k) (Fin vx) = fmul (Fin k) (Fin vy))
    by (cbn [fmul]; apply fin_eq; now rewrite Hv).
  rewrite Hsame. set (s := fmul (Fin k) (Fin vy)).
  assert (Hs : exists q, s = Fin q) by (eexists; reflexivity).
  destruct Hs as (q & Hq). rewrite Hq.
  assert (Hdiff : fsub (Fin q) (Fin q) = Fin 0).
  { cbn [fsub fneg fadd]. change (Fin 0) with (fin 0). apply fin_eq. ring. }
  rewrite Hdiff. cbn [np_sign]. change (Qeq_bool 0 0) with true. cbn iota.
  set (root := np_pow_half (fadd (square (Fin 0)) _)).
  assert (Hroot : fmul (Fin 0) root = Fin 0 \/ fmul (Fin 0) root = NaN).
  { destruct root as [t| | |].
    - left. cbn [fmul]. change (Fin 0) with (fin 0). apply fin_eq. ring.
    - right. reflexivity.
    - right. reflexivity.
    - right. reflexivity. }
  rewrite (fadd_zero_sides _ _ Hroot).
  assert (Hfeq : feq (Fin q) (Fin q) = true).
  { cbn [feq]. destruct (Qeq_bool_spec q q) as [_ | H]; [reflexivity|].
    exfalso. apply H. reflexivity. }
  rewrite Hfeq. do 2 eexists. split; [reflexivity|].
  cbn [fdiv fmul fin]. change (Qeq_bool 4 0) with false. cbn [np_sign fin].
  split; [|split]; intro Hxy.
  - destruct (Qeq_bool_spec (Qred (k * vxy)) 0) as [_ | H].
    + change (Fin 0) with (fin 0). rewrite fmul_fin. apply fin_eq. ring.
    + exfalso. apply H. rewrite Qred_correct, Hxy. ring.
  - destruct (Qeq_bool_spec (Qred (k * vxy)) 0) as [H | _].
    + exfalso. rewrite Qred_correct in H. nra.
    + destruct (Qltb_spec 0 (Qred (k * vxy))) as [_ | H].
      * change (Fin 1) with (fin 1). rewrite fmul_fin. apply fin_eq. ring.
      * exfalso. apply H. rewrite Qred_correct. nra.
  - destruct (Qeq_bool_spec (Qred (k * vxy)) 0) as [H | _].
    + exfalso. rewrite Qred_correct in H. nra.
    + destruct (Qltb_spec 0 (Qred (k * vxy))) as [H | _].
      * exfalso. rewrite Qred_correct in H. nra.
      * change (Fin (-1)) with (fin (-1)). rewrite fmul_fin. apply fin_eq. ring.
Qed.

(** X28 on a round beam without correlation. *)
Lemma equal_variances_give_equal_widths_witness :
  exists d phi,
    beamwidths (ellipse (M := eval_libm) (roi_of 2 4 2 4) [Fin 2; Fin 2; Fin 1; Fin 1; Fin 0])
    = [d; d; phi] /\
    ((0 == 0)%Q -> phi = Fin 0) /\
    ((0 < 0)%Q -> phi = fin (pi_double / 4)) /\
    ((0 < 0)%Q -> phi = fin (- (pi_double / 4))).
Proof.
  apply (equal_variances_give_equal_widths (M := eval_libm) (roi_of 2 4 2 4)
           (Fin 2) (Fin 2) 1 1 0).
  reflexivity.
Defined.

(** ** One image through the script *)

(** X29.  A black image of at least 2 rows and 2 columns goes through the
    script without an exception: [flatten_rgb] flags every channel and
    returns a frame of ones with its warning, and [calculate_beamwidths]
    converges on that frame within 2 passes and prints nothing, so the
    widths it reports are those of the frame, not of a beam (for a square
    root whose square is at least half its argument). *)
Theorem black_image_is_analysed {M : Libm} (im : image) :
  (2 <= im_shape0 im)%nat -> (2 <= im_shape1 im)%nat -> (1 <= im_shape2 im)%nat ->
  (forall i, (i < im_shape2 im)%nat -> dark_channel im i) ->
  sqrt_within_factor_2 M ->
  exists st r m,
    refine_roi it_limit (uniform_frame (im_shape0 im) (im_shape1 im) (Fin 1)) = Some (Ok st) /\
    (1 <= itN st <= 2)%nat /\ roi_moments st = Some (r, m) /\
    analyse_image it_limit im
    = Some (Ok (beamwidths (ellipse r m), repeat (Fin 1) (im_shape2 im), r),
            [warning_normalize]).
Proof.
  intros H0 H1 H2 Hdark Hsqrt.
  destruct (uniform_frame_refinement (im_shape0 im) (im_shape1 im) 1 H0 H1
              ltac:(discriminate) Hsqrt) as (st & Hrun & Hit & Hcond & Hpr).
  assert (Hrm : exists rm, roi_moments st = Some rm).
  { unfold refine_roi in Hrun. apply loop_stops_in in Hrun;
      [|cbn [itN initial_state]; unfold it_limit; lia | reflexivity].
    destruct Hrun as [_ [(_ & _ & ->) | [(_ & _ & _ & _ & H) | (_ & _ & H)]]].
    - cbn [itN initial_state] in Hit. lia.
    - exact H.
    - exact H. }
  destruct Hrm as [[r m] Hrm]. exists st, r, m.
  split; [exact Hrun|]. split; [exact Hit|]. split; [exact Hrm|].
  unfold analyse_image.
  rewrite (rejected_channels_flatten_to_ones im BITS SATLIM);
    [| lia | lia | lia | intros i Hi; right; split; [now apply Hdark | reflexivity]].
  unfold calculate_beamwidths. rewrite Hrun, Hrm, Hpr. reflexivity.
Qed.

(** X29 on the black image of 2 rows and 2 columns. *)
Lemma black_image_is_analysed_witness :
  exists st r m,
    refine_roi (M := eval_libm) it_limit
      (uniform_frame (im_shape0 black_image) (im_shape1 black_image) (Fin 1)) = Some (Ok st) /\
    (1 <= itN st <= 2)%nat /\ roi_moments st = Some (r, m) /\
    analyse_image (M := eval_libm) it_limit black_image
    = Some (Ok (beamwidths (ellipse (M := eval_libm) r m),
                repeat (Fin 1) (im_shape2 black_image), r),
            [warning_normalize]).
Proof.
  apply (black_image_is_analysed (M := eval_libm) black_image).
  - cbn. lia.
  - cbn. lia.
  - cbn. lia.
  - intros i Hi. repeat constructor; now destruct i as [|[|[|[|i]]]].
  - exact sqrt_down_within_factor_2.
Defined.

(** ** A frame without a width among the samples *)

(** X30.  One NaN among the diameters (the width of a blank frame) makes
    the whole initial guess of [fit_M2] NaN: the least and the greatest
    diameter are both NaN. *)
Theorem nan_diameter_poisons_guess {M : Libm} (dz z : list fl) :
  In NaN dz -> (length dz <= length z)%nat ->
  fit_M2_p0 dz z = Ok [NaN; NaN; NaN].
Proof.
  intros Hnan Hlen.
  assert (Hne : dz <> []) by (intros ->; destruct Hnan).
  unfold fit_M2_p0.
  destruct (np_argmin_in_range dz Hne) as (m & i & Hm & -> & Hi).
  destruct (np_argmax_in_range dz Hne) as (m' & i' & Hm' & -> & Hi').
  rewrite (np_min_nan dz Hnan) in *. rewrite (np_max_nan dz Hnan) in *.
  cbn [bind].
  destruct (getitem_in_range z i ltac:(lia)) as [zi ->].
  destruct (getitem_in_range z i' ltac:(lia)) as [zm ->].
  cbn [bind fsub fneg fadd fdiv np_arctan square fmul].
  now rewrite fmul_nan_r.
Qed.

(** X30 on three samples of which the second has no width. *)
Lemma nan_diameter_poisons_guess_witness :
  fit_M2_p0 (M := eval_libm) [Fin 3; NaN; Fin 2] [Fin 0; Fin 5; Fin 9]
  = Ok [NaN; NaN; NaN].
Proof.
  apply (nan_diameter_poisons_guess (M := eval_libm) [Fin 3; NaN; Fin 2] [Fin 0; Fin 5; Fin 9]).
  - cbn. tauto.
  - cbn. lia.
Defined.
